(** * Passenger sorting benchmark (main.cpp): a shallow embedding

    The development follows the source file top to bottom:
    the [Passenger] record with its comparison operators, the three
    hand-written sorts over a [std::vector<Passenger>], the CSV loader
    and writer, and the benchmark driver [main].

    Conventions.
    - A [std::vector<Passenger>] is a [list Passenger]; element access is
      unchecked in C++, so an access outside the vector is undefined
      behaviour and the embedding returns [Undef].
    - [int] is 32 bits, [long] and [size_t] are 64 bits (LP64); the
      conversions of the source are written out.
    - A C++ exception that nobody catches is [Throw]: the run ends in
      [std::terminate]. *)

From Stdlib Require Import ZArith Lia Ascii Sorting.Sorted Sorting.Permutation.
From stdpp Require Import base list strings gmap sorting.

Local Open Scope Z_scope.

(** ** Outcomes of a call *)

Inductive exn : Type :=
  | invalid_argument
  | out_of_range.

Inductive outcome (A : Type) : Type :=
  | Ok (a : A)            (* the call returns *)
  | Throw (e : exn)       (* an exception leaves the call *)
  | Undef                 (* undefined behaviour: an access outside a vector,
                             an overflow of a signed integer *)
  | NoFuel.               (* the loop bound of the embedding was too small *)

Arguments Ok {A} a.
Arguments Throw {A} e.
Arguments Undef {A}.
Arguments NoFuel {A}.

#[global] Instance outcome_bind : MBind outcome := fun A B k m =>
  match m with
  | Ok a => k a
  | Throw e => Throw e
  | Undef => Undef
  | NoFuel => NoFuel
  end.

(** ** Machine integers *)

Definition INT_MIN : Z := -2147483648.
Definition INT_MAX : Z := 2147483647.
Definition LONG_MAX : Z := 9223372036854775807.

(** Conversion of a value to [int] / [long]: reduction modulo 2^w into the
    signed range. *)
Definition to_int (z : Z) : Z := (z + 2147483648) mod 4294967296 - 2147483648.
Definition to_long (z : Z) : Z :=
  (z + 9223372036854775808) mod 18446744073709551616 - 9223372036854775808.
(** Arithmetic on [size_t] wraps modulo 2^64. *)
Definition to_size_t (z : Z) : Z := z mod 18446744073709551616.

Definition in_int (z : Z) : Prop := INT_MIN <= z <= INT_MAX.

(** ** The record and its order (struct Passenger) *)

Record Passenger : Type := mkPassenger {
  fullName : string;
  cabinNumber : Z;           (* an [int]: see [in_int] *)
  cabinType : string;
  destinationPort : string
}.

(** [std::string::operator<] is the lexicographic order on the bytes,
    [String.ltb]; [!=] is the negation of [String.eqb]. *)
Definition lt (a b : Passenger) : bool :=
  if negb (cabinNumber a =? cabinNumber b) then cabinNumber a <? cabinNumber b
  else if negb (String.eqb (destinationPort a) (destinationPort b))
       then String.ltb (destinationPort a) (destinationPort b)
  else String.ltb (fullName a) (fullName b).

Definition gt (a b : Passenger) : bool := lt b a.
Definition le (a b : Passenger) : bool := negb (lt b a).
Definition ge (a b : Passenger) : bool := negb (lt a b).

(** The three keys the order looks at. *)
Definition key (a : Passenger) : Z * string * string :=
  (cabinNumber a, destinationPort a, fullName a).

(** ** Vectors of records *)

Abbreviation vec := (list Passenger).

(** [arr.size()] *)
Definition size (arr : vec) : Z := Z.of_nat (length arr).

(** The element at a (possibly negative) index, if there is one. *)
Definition zlookup (arr : vec) (i : Z) : option Passenger :=
  if 0 <=? i then arr !! Z.to_nat i else None.

(** [arr[i]] read: outside the vector the behaviour is undefined. *)
Definition vget (arr : vec) (i : Z) : outcome Passenger :=
  match zlookup arr i with
  | Some x => Ok x
  | None => Undef
  end.

(** [arr[i] = x] *)
Definition vset (arr : vec) (i : Z) (x : Passenger) : outcome vec :=
  match zlookup arr i with
  | Some _ => Ok (<[Z.to_nat i := x]> arr)
  | None => Undef
  end.

(** [std::swap(arr[i], arr[j])] *)
Definition swap (arr : vec) (i j : Z) : outcome vec :=
  ai ← vget arr i;
  aj ← vget arr j;
  arr1 ← vset arr i aj;
  vset arr1 j ai.

(** [std::vector<Passenger>(arr.begin() + a, arr.begin() + b)]: the
    iterators have to stay inside [begin, end]. *)
Definition slice (arr : vec) (a b : Z) : outcome vec :=
  if (0 <=? a) && (a <=? b) && (b <=? size arr)
  then Ok (take (Z.to_nat (b - a)) (drop (Z.to_nat a) arr))
  else Undef.

(** [std::copy(src.begin(), src.end(), arr.begin() + off)] *)
Definition copy_into (arr : vec) (off : Z) (src : vec) : outcome vec :=
  if (0 <=? off) && (off + size src <=? size arr)
  then Ok (take (Z.to_nat off) arr ++ src ++ drop (Z.to_nat (off + size src)) arr)
  else Undef.

(** ** selectionSort *)

(** The inner loop [for (int j = ...; j < n; ++j)]: the index of a least
    element of [arr[j..n)] and [arr[minIndex]]. *)
Fixpoint sel_min (fuel : nat) (arr : vec) (n j minIndex : Z) : outcome Z :=
  if j <? n then
    match fuel with
    | O => NoFuel
    | S fuel' =>
        aj ← vget arr j;
        am ← vget arr minIndex;
        sel_min fuel' arr n (j + 1) (if lt aj am then j else minIndex)
    end
  else Ok minIndex.

(** The outer loop [for (int i = ...; i < n - 1; ++i)]. *)
Fixpoint sel_loop (fuel : nat) (arr : vec) (n i : Z) : outcome vec :=
  if i <? n - 1 then
    match fuel with
    | O => NoFuel
    | S fuel' =>
        minIndex ← sel_min (length arr) arr n (i + 1) i;
        arr1 ← (if negb (minIndex =? i) then swap arr i minIndex else Ok arr);
        sel_loop fuel' arr1 n (i + 1)
    end
  else Ok arr.

(** [int n = arr.size()] converts a [size_t] to [int]; [n - 1] overflows
    for [n = INT_MIN]. The increments stay below [n]. *)
Definition selectionSort (arr : vec) : outcome vec :=
  let n := to_int (size arr) in
  if n =? INT_MIN then Undef
  else sel_loop (length arr) arr n 0.

(** ** insertionSort *)

(** The condition [j >= 0 && arr[j] > key], evaluated left to right. *)
Definition ins_cond (arr : vec) (key : Passenger) (j : Z) : outcome bool :=
  if 0 <=? j then aj ← vget arr j; Ok (gt aj key) else Ok false.

(** The [while] loop: shifts the larger records one slot to the right. *)
Fixpoint ins_shift (fuel : nat) (arr : vec) (key : Passenger) (j : Z)
  : outcome (vec * Z) :=
  c ← ins_cond arr key j;
  if c : bool then
    match fuel with
    | O => NoFuel
    | S fuel' =>
        aj ← vget arr j;
        arr1 ← vset arr (j + 1) aj;
        ins_shift fuel' arr1 key (j - 1)
    end
  else Ok (arr, j).

(** The [for] loop. In [i < arr.size()] the [int] is converted to
    [size_t]; [++i] overflows at [INT_MAX]. *)
Fixpoint ins_loop (fuel : nat) (arr : vec) (i : Z) : outcome vec :=
  if to_size_t i <? size arr then
    match fuel with
    | O => NoFuel
    | S fuel' =>
        key ← vget arr i;
        '(arr1, j) ← ins_shift (length arr) arr key (i - 1);
        arr2 ← vset arr1 (j + 1) key;
        if i =? INT_MAX then Undef else ins_loop fuel' arr2 (i + 1)
    end
  else Ok arr.

Definition insertionSort (arr : vec) : outcome vec :=
  ins_loop (length arr) arr 1.

(** ** quickSortR *)

(** [while (arr[i] < p) i++;] *)
Fixpoint scan_up (fuel : nat) (arr : vec) (p : Passenger) (i : Z) : outcome Z :=
  ai ← vget arr i;
  if lt ai p then
    match fuel with
    | O => NoFuel
    | S fuel' => scan_up fuel' arr p (i + 1)
    end
  else Ok i.

(** [while (arr[j] > p) j--;] *)
Fixpoint scan_down (fuel : nat) (arr : vec) (p : Passenger) (j : Z) : outcome Z :=
  aj ← vget arr j;
  if gt aj p then
    match fuel with
    | O => NoFuel
    | S fuel' => scan_down fuel' arr p (j - 1)
    end
  else Ok j.

(** The [do ... while (i <= j)] loop: the body runs, then the test. *)
Fixpoint partition (fuel : nat) (arr : vec) (p : Passenger) (i j : Z)
  : outcome (vec * Z * Z) :=
  match fuel with
  | O => NoFuel
  | S fuel' =>
      i1 ← scan_up (length arr) arr p i;
      j1 ← scan_down (length arr) arr p j;
      '(arr2, i2, j2) ←
        (if i1 <=? j1
         then arr1 ← swap arr i1 j1; Ok (arr1, i1 + 1, j1 - 1)
         else Ok (arr, i1, j1));
      if i2 <=? j2 then partition fuel' arr2 p i2 j2 else Ok (arr2, i2, j2)
  end.

(** [depth] bounds the nesting of the recursive calls. [long j =
    arr.size() - 1] subtracts in [size_t] and converts to [long]; in
    [i < arr.size()] the [long] is converted to [size_t]. *)
Fixpoint quickSortR_rec (depth : nat) (arr : vec) : outcome vec :=
  match depth with
  | O => NoFuel
  | S depth' =>
      let j0 := to_long (to_size_t (size arr - 1)) in
      p ← vget arr (Z.shiftr (size arr) 1);
      '(arr1, i, j) ← partition (length arr) arr p 0 j0;
      arr2 ←
        (if 0 <? j then
           left ← slice arr1 0 (j + 1);
           left' ← quickSortR_rec depth' left;
           copy_into arr1 0 left'
         else Ok arr1);
      if to_size_t i <? size arr2 then
        right ← slice arr2 i (size arr2);
        right' ← quickSortR_rec depth' right;
        copy_into arr2 i right'
      else Ok arr2
  end.

Definition quickSortR (arr : vec) : outcome vec :=
  quickSortR_rec (S (length arr)) arr.

(** ** Text: [std::getline], [std::stoi], [operator<<] *)

Definition comma : Ascii.ascii := ","%char.
Definition newline : Ascii.ascii := "010"%char.

(** The characters up to the first [delim], and what follows it. *)
Fixpoint split_at (delim : Ascii.ascii) (s : string) : string * string :=
  match s with
  | EmptyString => (EmptyString, EmptyString)
  | String c s' =>
      if Ascii.eqb c delim then (EmptyString, s')
      else let '(l, r) := split_at delim s' in (String c l, r)
  end.

(** [std::getline(is, str, delim)] on a stream with [s] left to read: it
    fails when nothing is left, else it yields the text before the
    delimiter and consumes the delimiter. *)
Definition getline (delim : Ascii.ascii) (s : string) : option (string * string) :=
  match s with
  | EmptyString => None
  | _ => Some (split_at delim s)
  end.

(** C [isspace] in the default locale. *)
Definition is_space (c : Ascii.ascii) : bool :=
  let n := Ascii.nat_of_ascii c in
  ((n =? 32) || ((9 <=? n) && (n <=? 13)))%nat.

Fixpoint skip_space (s : string) : string :=
  match s with
  | String c s' => if is_space c then skip_space s' else s
  | EmptyString => EmptyString
  end.

Definition digit_of (c : Ascii.ascii) : option Z :=
  let n := Z.of_nat (Ascii.nat_of_ascii c) in
  if (48 <=? n) && (n <=? 57) then Some (n - 48) else None.

(** The value of the longest prefix of decimal digits, from [acc]. *)
Fixpoint read_digits (s : string) (acc : Z) : Z :=
  match s with
  | String c s' =>
      match digit_of c with
      | Some d => read_digits s' (10 * acc + d)
      | None => acc
      end
  | EmptyString => acc
  end.

Definition starts_with_digit (s : string) : bool :=
  match s with
  | String c _ => if digit_of c is Some _ then true else false
  | EmptyString => false
  end.

(** [std::stoi(str)]: leading white space, an optional sign, then the
    longest run of digits (what follows is ignored). No digit:
    [std::invalid_argument]; a value outside [int]: [std::out_of_range]. *)
Definition stoi (str : string) : outcome Z :=
  let s := skip_space str in
  let '(neg, s1) :=
    match s with
    | String c s' =>
        if Ascii.eqb c "-"%char then (true, s')
        else if Ascii.eqb c "+"%char then (false, s')
        else (false, s)
    | EmptyString => (false, s)
    end in
  if starts_with_digit s1 then
    let v := read_digits s1 0 in
    let v := if neg : bool then - v else v in
    if (INT_MIN <=? v) && (v <=? INT_MAX) then Ok v else Throw out_of_range
  else Throw invalid_argument.

Definition digit_char (d : Z) : Ascii.ascii := Ascii.ascii_of_nat (Z.to_nat (48 + d)).

(** The decimal digits of [n >= 0] in front of [acc]. *)
Fixpoint dec_digits (fuel : nat) (n : Z) (acc : string) : string :=
  let acc' := String (digit_char (n mod 10)) acc in
  match fuel with
  | O => acc'
  | S fuel' => if n <? 10 then acc' else dec_digits fuel' (n / 10) acc'
  end.

(** [os << n] and [std::to_string(n)] for an integer: decimal, a minus
    sign for a negative value. [n] has no more decimal than binary digits. *)
Definition to_string (n : Z) : string :=
  if n <? 0 then String "-"%char (dec_digits (Z.to_nat (Z.log2 (- n))) (- n) EmptyString)
  else dec_digits (Z.to_nat (Z.log2 n)) n EmptyString.

(** ** loadPassengers and savePassengers *)

(** One [std::getline(ss, field, ',')] into an empty string: a failed read
    leaves the field empty. *)
Definition getfield (s : string) : string * string :=
  match getline comma s with
  | Some r => r
  | None => (EmptyString, EmptyString)
  end.

(** The body of the [while] loop for one line. *)
Definition parse_row (line : string) : outcome Passenger :=
  let '(fullName, s1) := getfield line in
  let '(cabinNumberStr, s2) := getfield s1 in
  let '(cabinType, s3) := getfield s2 in
  let '(destinationPort, _) := getfield s3 in
  n ← stoi cabinNumberStr;
  Ok (mkPassenger fullName n cabinType destinationPort).

(** [while (std::getline(file, line)) { ... passengers.push_back(p); }] *)
Fixpoint load_rows (fuel : nat) (input : string) (passengers : vec) : outcome vec :=
  match getline newline input with
  | None => Ok passengers
  | Some (line, rest) =>
      match fuel with
      | O => NoFuel
      | S fuel' =>
          p ← parse_row line;
          load_rows fuel' rest (passengers ++ [p])
      end
  end.

(** The files are a finite map from names to contents; a name that is not
    in the map cannot be opened for reading. *)
Abbreviation filesystem := (gmap string string).

Definition loadPassengers (fs : filesystem) (filename : string) : outcome vec :=
  match fs !! filename with
  | None => Ok []
  | Some content =>
      let rest := match getline newline content with
                  | Some (_, r) => r
                  | None => EmptyString
                  end in
      load_rows (String.length content) rest []
  end.

Definition csv_header : string :=
  "ФИО пассажира,Номер каюты,Тип каюты,Порт назначения".

Definition nl : string := String newline EmptyString.

Definition csv_row (p : Passenger) : string :=
  fullName p +:+ "," +:+ to_string (cabinNumber p) +:+ "," +:+ cabinType p
    +:+ "," +:+ destinationPort p +:+ nl.

(** [for (const auto& p : passengers) file << ... << "\n";] *)
Fixpoint csv_rows (passengers : vec) : string :=
  match passengers with
  | [] => EmptyString
  | p :: passengers' => csv_row p +:+ csv_rows passengers'
  end.

Definition csv_text (passengers : vec) : string :=
  csv_header +:+ nl +:+ csv_rows passengers.

Section Benchmark.

(** What the program takes from its environment: the library sort, the
    readings of [high_resolution_clock::now()] in nanoseconds, numbered
    from the first call, and the names an output stream can be opened on
    (a stream that failed to open drops what is written to it). *)
Variable std_sort : vec -> vec.
Variable clock : nat -> Z.
Variable can_create : string -> bool.

Definition write_file (filename content : string) (fs : filesystem) : filesystem :=
  if can_create filename then <[filename := content]> fs else fs.

Definition savePassengers (filename : string) (passengers : vec) (fs : filesystem)
  : filesystem :=
  write_file filename (csv_text passengers) fs.

(** [duration_cast<milliseconds>(end - start).count()]: truncated. *)
Definition elapsed_ms (start end_ : Z) : Z := Z.quot (end_ - start) 1000000.

Definition sizes : list Z :=
  [100; 1000; 3000; 5000; 7000; 10000; 20000; 30000; 50000; 70000; 100000].

Definition log_header : string := "Size,SelectionSort,InsertionSort,QuickSort,StdSort".

(** The body of [for (int size : sizes)], from the [t]-th reading of the
    clock on; [log] is what went to [logFile] so far. *)
Fixpoint bench (todo : list Z) (allPassengers : vec) (t : nat) (log : string)
    (fs : filesystem) : outcome (string * filesystem) :=
  match todo with
  | [] => Ok (log, fs)
  | size :: todo' =>
      passengers ← slice allPassengers 0 size;
      selSorted ← selectionSort passengers;
      let timing := elapsed_ms (clock t) (clock (t + 1)) in
      let log := log +:+ to_string size +:+ "," +:+ to_string timing +:+ "," in
      insSorted ← insertionSort passengers;
      let timing := elapsed_ms (clock (t + 2)) (clock (t + 3)) in
      let log := log +:+ to_string timing +:+ "," in
      qckSorted ← quickSortR passengers;
      let timing := elapsed_ms (clock (t + 4)) (clock (t + 5)) in
      let log := log +:+ to_string timing +:+ "," in
      let stdSorted := std_sort passengers in
      let timing := elapsed_ms (clock (t + 6)) (clock (t + 7)) in
      let log := log +:+ to_string timing +:+ nl in
      let fs := savePassengers ("sorted/ss_" +:+ to_string size +:+ ".csv") selSorted fs in
      let fs := savePassengers ("sorted/is_" +:+ to_string size +:+ ".csv") insSorted fs in
      let fs := savePassengers ("sorted/qs_" +:+ to_string size +:+ ".csv") qckSorted fs in
      bench todo' allPassengers (t + 8) log fs
  end.

(** [main]: the exit status and the files when it returns. The log stream
    is written out when [main] returns. *)
Definition main (fs : filesystem) : outcome (Z * filesystem) :=
  allPassengers ← loadPassengers fs "passengers.csv";
  if allPassengers is [] then Ok (1, fs)
  else
    '(log, fs1) ← bench sizes allPassengers 0 log_header fs;
    Ok (0, write_file "timings.csv" log fs1).

End Benchmark.


(* ------------------------------------------------------------------ *)
(** * Notions used in the statements *)

Definition leP (a b : Passenger) : Prop := le a b = true.

#[local] Instance leP_dec (a b : Passenger) : Decision (leP a b).
Proof. unfold leP. apply _. Defined.

(** Non-decreasing under the order of the records. *)
Definition sorted (arr : vec) : Prop := Sorted leP arr.

(** The indices below [n] hold a non-decreasing run. *)
Definition sorted_upto (arr : vec) (n : Z) : Prop :=
  forall i j x y, i <= j -> j < n ->
    zlookup arr i = Some x -> zlookup arr j = Some y -> le x y = true.


(** The state of the inner loop of [insertionSort] relative to the vector
    [arr0] it started from: slot [j + 1] is free, the slots after it up to
    [i] hold the records of [arr0] moved one slot to the right, which are
    all greater than [key]. *)
Definition ins_inv (arr0 arr : vec) (key : Passenger) (i j : Z) : Prop :=
  size arr = size arr0 /\
  <[Z.to_nat (j + 1) := key]> arr ≡ₚ arr0 /\
  (forall k, k <= j -> zlookup arr k = zlookup arr0 k) /\
  (forall k, j + 2 <= k <= i -> zlookup arr k = zlookup arr0 (k - 1)) /\
  (forall k x, j + 1 <= k < i -> zlookup arr0 k = Some x -> lt key x = true) /\
  (forall k, i < k -> zlookup arr k = zlookup arr0 k).

(** The two sides of a partition around the pivot [p]: no record below
    index [i] is greater than [p], no record above index [j] is less. *)
Definition low_side (arr : vec) (p : Passenger) (i : Z) : Prop :=
  forall k x, k < i -> zlookup arr k = Some x -> lt p x = false.
Definition high_side (arr : vec) (p : Passenger) (j : Z) : Prop :=
  forall k x, j < k -> zlookup arr k = Some x -> lt x p = false.

(** What holds when the body of the [do ... while] loop is entered: each
    scan has a record that stops it inside the vector, and either a swap
    has been made or a record equivalent to the pivot lies in [i..j]. *)
Definition part_pre (arr : vec) (p : Passenger) (i j : Z) : Prop :=
  0 <= i <= j /\ j < size arr /\
  low_side arr p i /\ high_side arr p j /\
  (exists s x, i <= s /\ zlookup arr s = Some x /\ lt x p = false) /\
  (exists s x, s <= j /\ zlookup arr s = Some x /\ lt p x = false) /\
  (1 <= i /\ j <= size arr - 2 \/
   exists s x, i <= s <= j /\ zlookup arr s = Some x /\
               lt x p = false /\ lt p x = false).

(** What holds when the loop is left. *)
Definition part_post (arr0 arr : vec) (p : Passenger) (i j : Z) : Prop :=
  arr0 ≡ₚ arr /\ j < i /\ 1 <= i <= size arr /\ -1 <= j <= size arr - 2 /\
  low_side arr p i /\ high_side arr p j.

(** [c] occurs in [s]. *)
Fixpoint occurs (c : Ascii.ascii) (s : string) : bool :=
  match s with
  | EmptyString => false
  | String d s' => Ascii.eqb d c || occurs c s'
  end.

(** [s] is made of decimal digits. *)
Fixpoint digits_only (s : string) : bool :=
  match s with
  | EmptyString => true
  | String d s' => (if digit_of d is Some _ then true else false) && digits_only s'
  end.

(** A record as it can stand on one line of the CSV file: the cabin number
    is an [int] and no text field holds a comma or a line feed. *)
Definition field_ok (s : string) : Prop :=
  occurs comma s = false /\ occurs newline s = false.
Definition row_ok (p : Passenger) : Prop :=
  in_int (cabinNumber p) /\
  field_ok (fullName p) /\ field_ok (cabinType p) /\ field_ok (destinationPort p).

(** The line of a record without its line feed. *)
Definition csv_line (p : Passenger) : string :=
  fullName p +:+ "," +:+ to_string (cabinNumber p) +:+ "," +:+ cabinType p
    +:+ "," +:+ destinationPort p.

(** The lines that the loop of [loadPassengers] reads from [input]. *)
Fixpoint lines_of (fuel : nat) (input : string) : list string :=
  match getline newline input with
  | None => []
  | Some (line, rest) =>
      match fuel with
      | O => []
      | S fuel' => line :: lines_of fuel' rest
      end
  end.

(** The lines of a file after its header line. *)
Definition data_rows (content : string) : list string :=
  lines_of (String.length content)
    (match getline newline content with
     | Some (_, r) => r
     | None => EmptyString
     end).

(** Parsing lines one after the other, up to the first that fails. *)
Fixpoint parse_rows (rows : list string) : outcome vec :=
  match rows with
  | [] => Ok []
  | row :: rows' => p ← parse_row row; ps ← parse_rows rows'; Ok (p :: ps)
  end.

(** The text that [parse_row] hands to [std::stoi]. *)
Definition second_field (line : string) : string := (getfield (getfield line).2).1.

(** The line of the timing log for [size], measured from the [t]-th
    reading of the clock on. *)
Definition log_row (clock : nat -> Z) (size : Z) (t : nat) : string :=
  to_string size +:+ "," +:+
  to_string (elapsed_ms (clock t) (clock (t + 1)%nat)) +:+ "," +:+
  to_string (elapsed_ms (clock (t + 2)%nat) (clock (t + 3)%nat)) +:+ "," +:+
  to_string (elapsed_ms (clock (t + 4)%nat) (clock (t + 5)%nat)) +:+ "," +:+
  to_string (elapsed_ms (clock (t + 6)%nat) (clock (t + 7)%nat)) +:+ nl.

Fixpoint log_rows (clock : nat -> Z) (todo : list Z) (t : nat) : string :=
  match todo with
  | [] => EmptyString
  | size :: todo' => log_row clock size t +:+ log_rows clock todo' (t + 8)
  end.

(** The vector a sort returned. *)
Definition sorted_of (o : outcome vec) : vec :=
  match o with
  | Ok r => r
  | _ => []
  end.

(** The three files written for [size]. *)
Definition save_sorted (can_create : string -> bool) (allPassengers : vec)
    (fs : filesystem) (size : Z) : filesystem :=
  let passengers := take (Z.to_nat size) allPassengers in
  savePassengers can_create ("sorted/qs_" +:+ to_string size +:+ ".csv")
    (sorted_of (quickSortR passengers))
    (savePassengers can_create ("sorted/is_" +:+ to_string size +:+ ".csv")
       (sorted_of (insertionSort passengers))
       (savePassengers can_create ("sorted/ss_" +:+ to_string size +:+ ".csv")
          (sorted_of (selectionSort passengers)) fs)).

(** The order of the records as an order on their keys. *)
Definition of_key (k : Z * string * string) : Passenger :=
  mkPassenger k.2 k.1.1 EmptyString k.1.2.
Definition key_le (k1 k2 : Z * string * string) : Prop := leP (of_key k1) (of_key k2).

(** The [k]-th piece of a line cut at its commas, as the loop of
    [loadPassengers] reads it (from 0). *)
Fixpoint skip_fields (k : nat) (s : string) : string :=
  match k with
  | O => s
  | S k' => skip_fields k' (getfield s).2
  end.
Definition nth_field (k : nat) (s : string) : string := (getfield (skip_fields k s)).1.

(** [s] holds white space only. *)
Fixpoint spaces_only (s : string) : bool :=
  match s with
  | EmptyString => true
  | String c s' => is_space c && spaces_only s'
  end.

(** The integer that a decimal text stands for. *)
Definition value (s : string) : Z :=
  match s with
  | String c s' => if Ascii.eqb c "-"%char then - read_digits s' 0 else read_digits s 0
  | EmptyString => 0
  end.

(** The name of the file that [main] writes for an algorithm and a size. *)
Definition sorted_name (algorithm : string) (size : Z) : string :=
  "sorted/" +:+ algorithm +:+ "_" +:+ to_string size +:+ ".csv".

(** The algorithm behind a short name, and the text of its file for a
    size. *)
Definition algorithm_named (a : string) : vec -> outcome vec :=
  if String.eqb a "ss" then selectionSort
  else if String.eqb a "is" then insertionSort else quickSortR.
Definition sorted_content (allPassengers : vec) (a : string) (s : Z) : string :=
  csv_text (sorted_of (algorithm_named a (take (Z.to_nat s) allPassengers))).

(** What a run may do when the embedding gives [o]. A defined outcome is
    the only one the run can have. After undefined behaviour the C++
    standard requires nothing of the run: it may return any value, let
    any exception escape or crash, so every result is possible. *)
Definition may_end_as {A : Type} (o r : outcome A) : Prop := o = r \/ o = Undef.
(* ------------------------------------------------------------------ *)
(** * Properties *)

(** ** Facts on the string order *)

Lemma ascii_compare_refl (a : Ascii.ascii) : Ascii.compare a a = Eq.
Proof. unfold Ascii.compare. apply N.compare_refl. Qed.

Lemma string_compare_refl (s : string) : String.compare s s = Eq.
Proof. induction s as [|a s IH]; simpl; [done|]. by rewrite ascii_compare_refl. Qed.

Lemma string_ltb_irrefl (s : string) : String.ltb s s = false.
Proof. unfold String.ltb. by rewrite string_compare_refl. Qed.

Lemma ascii_compare_lt_trans (a b c : Ascii.ascii) :
  Ascii.compare a b = Lt -> Ascii.compare b c = Lt -> Ascii.compare a c = Lt.
Proof.
  unfold Ascii.compare. rewrite !N.compare_lt_iff. lia.
Qed.

Lemma string_compare_lt_trans (s1 : string) :
  forall s2 s3, String.compare s1 s2 = Lt -> String.compare s2 s3 = Lt ->
                String.compare s1 s3 = Lt.
Proof.
  induction s1 as [|a s1 IH]; intros [|b s2] [|c s3]; simpl; try done.
  destruct (Ascii.compare a b) eqn:Hab; try done;
    destruct (Ascii.compare b c) eqn:Hbc; try done; intros H12 H23.
  - apply Ascii.compare_eq_iff in Hab, Hbc. subst.
    rewrite ascii_compare_refl.
    by eapply IH.
  - apply Ascii.compare_eq_iff in Hab. subst. by rewrite Hbc.
  - apply Ascii.compare_eq_iff in Hbc. subst. by rewrite Hab.
  - by rewrite (ascii_compare_lt_trans _ _ _ Hab Hbc).
Qed.

Lemma string_ltb_trans (s1 s2 s3 : string) :
  String.ltb s1 s2 = true -> String.ltb s2 s3 = true -> String.ltb s1 s3 = true.
Proof.
  unfold String.ltb.
  destruct (String.compare s1 s2) eqn:H12; try done.
  destruct (String.compare s2 s3) eqn:H23; try done.
  by rewrite (string_compare_lt_trans _ _ _ H12 H23).
Qed.

Lemma string_ltb_total (s1 s2 : string) :
  String.ltb s1 s2 = false -> String.ltb s2 s1 = false -> s1 = s2.
Proof.
  unfold String.ltb. rewrite (String.compare_antisym s1 s2).
  destruct (String.compare s2 s1) eqn:H; try done.
  intros _ _. symmetry. by apply String.compare_eq_iff.
Qed.

(** ** The order on records *)

Lemma lt_spec (a b : Passenger) :
  lt a b = true <->
  cabinNumber a < cabinNumber b \/
  cabinNumber a = cabinNumber b /\
  (String.ltb (destinationPort a) (destinationPort b) = true \/
   destinationPort a = destinationPort b /\
   String.ltb (fullName a) (fullName b) = true).
Proof.
  unfold lt.
  destruct (Z.eqb_spec (cabinNumber a) (cabinNumber b)) as [Hc|Hc]; simpl.
  - destruct (String.eqb_spec (destinationPort a) (destinationPort b)) as [Hd|Hd]; simpl.
    + rewrite Hd, string_ltb_irrefl. split.
      * intros H. right. split; [done|]. by right.
      * intros [?|[_ [?|[_ ?]]]]; [lia|done|done].
    + split; [intros H; right; split; [done|by left]|].
      intros [?|[_ [?|[? _]]]]; [lia|done|done].
  - rewrite Z.ltb_lt. split; [by left|]. intros [?|[? _]]; [done|lia].
Qed.

Lemma lt_irrefl (a : Passenger) : lt a a = false.
Proof.
  apply not_true_is_false. rewrite lt_spec.
  rewrite !string_ltb_irrefl. intros [?|[_ [?|[_ ?]]]]; [lia|done|done].
Qed.

Lemma lt_trans (a b c : Passenger) :
  lt a b = true -> lt b c = true -> lt a c = true.
Proof.
  rewrite !lt_spec.
  intros [?|[Hab [?|[Hab' ?]]]] [?|[Hbc [?|[Hbc' ?]]]]; try (left; lia);
    right; (split; [lia|]).
  - left. by eapply string_ltb_trans.
  - left. by rewrite <- Hbc'.
  - left. by rewrite Hab'.
  - right. split; [congruence|]. by eapply string_ltb_trans.
Qed.

Lemma lt_asym (a b : Passenger) : lt a b = true -> lt b a = false.
Proof.
  intros Hab. apply not_true_is_false. intros Hba.
  pose proof (lt_trans _ _ _ Hab Hba) as H. by rewrite lt_irrefl in H.
Qed.

(** Records that are not ordered either way have the same three keys. *)
Lemma lt_incomparable_key (a b : Passenger) :
  lt a b = false -> lt b a = false -> key a = key b.
Proof.
  intros Hab Hba.
  apply not_true_iff_false in Hab, Hba. rewrite lt_spec in Hab, Hba.
  assert (cabinNumber a = cabinNumber b) as Hc by lia.
  assert (destinationPort a = destinationPort b) as Hd.
  { apply string_ltb_total; apply not_true_is_false; intros ?.
    - apply Hab. right. split; [done|]. by left.
    - apply Hba. right. split; [done|]. by left. }
  assert (fullName a = fullName b) as Hn.
  { apply string_ltb_total; apply not_true_is_false; intros ?.
    - apply Hab. right. split; [done|]. by right.
    - apply Hba. right. split; [done|]. by right. }
  unfold key. by rewrite Hc, Hd, Hn.
Qed.

Lemma lt_key (a a' b b' : Passenger) :
  key a = key a' -> key b = key b' -> lt a b = lt a' b'.
Proof.
  unfold key, lt. intros [= -> -> ->] [= -> -> ->]. done.
Qed.

(** Passing through an incomparable record: the missing half of a strict
    weak order. *)
Lemma lt_incomparable_trans (a b c : Passenger) :
  lt a b = false -> lt b a = false -> lt b c = false -> lt c b = false ->
  lt a c = false /\ lt c a = false.
Proof.
  intros H1 H2 H3 H4.
  pose proof (lt_incomparable_key _ _ H1 H2) as Hab.
  pose proof (lt_incomparable_key _ _ H3 H4) as Hbc.
  rewrite (lt_key a b c b), (lt_key c b a b), lt_irrefl; try done; congruence.
Qed.

Lemma le_refl (a : Passenger) : le a a = true.
Proof. unfold le. by rewrite lt_irrefl. Qed.

Lemma le_total (a b : Passenger) : le a b = true \/ le b a = true.
Proof.
  unfold le. destruct (lt b a) eqn:H; [right|by left].
  by rewrite (lt_asym _ _ H).
Qed.

Lemma le_trans (a b c : Passenger) :
  le a b = true -> le b c = true -> le a c = true.
Proof.
  unfold le. rewrite !negb_true_iff. intros Hba Hcb.
  destruct (lt c a) eqn:Hca; [|done].
  (* c < a: then b is below a or above c *)
  destruct (lt a b) eqn:Hab.
  - pose proof (lt_trans _ _ _ Hca Hab). congruence.
  - pose proof (lt_incomparable_key _ _ Hab Hba) as Hk.
    rewrite (lt_key c c a b) in Hca; congruence.
Qed.

Lemma lt_le (a b : Passenger) : lt a b = true -> le a b = true.
Proof. intros H. unfold le. by rewrite (lt_asym _ _ H). Qed.

Lemma lt_le_trans (a b c : Passenger) :
  lt a b = true -> le b c = true -> lt a c = true.
Proof.
  intros Hab Hbc. destruct (lt a c) eqn:Hac; [done|].
  assert (le c a = true) as Hca by (unfold le; by rewrite Hac).
  pose proof (le_trans _ _ _ Hbc Hca) as Hba. unfold le in Hba.
  by rewrite Hab in Hba.
Qed.


(** ** Vectors *)

Lemma size_nonneg (arr : vec) : 0 <= size arr.
Proof. unfold size. lia. Qed.

Lemma size_pos_nonempty (arr : vec) : 1 <= size arr -> arr <> [].
Proof. intros H ->. unfold size in H. simpl in H. lia. Qed.

Lemma size_nonempty (arr : vec) : arr <> [] -> 1 <= size arr.
Proof. destruct arr; [done|]. unfold size. simpl. lia. Qed.

Lemma zlookup_Some (arr : vec) (i : Z) (x : Passenger) :
  zlookup arr i = Some x -> 0 <= i < size arr.
Proof.
  unfold zlookup, size. destruct (Z.leb_spec 0 i); [|done].
  intros Hx%lookup_lt_Some. lia.
Qed.

Lemma zlookup_in_range (arr : vec) (i : Z) :
  0 <= i < size arr -> exists x, zlookup arr i = Some x.
Proof.
  unfold zlookup, size. intros Hi.
  destruct (Z.leb_spec 0 i); [|lia].
  apply lookup_lt_is_Some. lia.
Qed.

Lemma zlookup_None (arr : vec) (i : Z) :
  ~ (0 <= i < size arr) -> zlookup arr i = None.
Proof.
  intros Hi. destruct (zlookup arr i) eqn:H; [|done].
  apply zlookup_Some in H. lia.
Qed.

Lemma vget_zlookup (arr : vec) (i : Z) (x : Passenger) :
  zlookup arr i = Some x -> vget arr i = Ok x.
Proof. unfold vget. by intros ->. Qed.

Lemma size_insert (arr : vec) (n : nat) (x : Passenger) :
  size (<[n := x]> arr) = size arr.
Proof. unfold size. by rewrite length_insert. Qed.

Lemma zlookup_insert (arr : vec) (i k : Z) (x : Passenger) :
  0 <= i < size arr ->
  zlookup (<[Z.to_nat i := x]> arr) k = if decide (k = i) then Some x else zlookup arr k.
Proof.
  unfold zlookup, size. intros Hi.
  destruct (decide (k = i)) as [->|Hne].
  - destruct (Z.leb_spec 0 i); [|lia]. apply list_lookup_insert_eq. lia.
  - destruct (Z.leb_spec 0 k); [|done]. apply list_lookup_insert_ne. lia.
Qed.

Lemma vset_in_range (arr : vec) (i : Z) (x : Passenger) :
  0 <= i < size arr -> vset arr i x = Ok (<[Z.to_nat i := x]> arr).
Proof.
  intros Hi. unfold vset. by destruct (zlookup_in_range arr i Hi) as [y ->].
Qed.

Lemma swap_spec (arr : vec) (i j : Z) (ai aj : Passenger) :
  zlookup arr i = Some ai -> zlookup arr j = Some aj ->
  exists arr1,
    swap arr i j = Ok arr1 /\
    size arr1 = size arr /\
    arr ≡ₚ arr1 /\
    forall k, zlookup arr1 k =
              if decide (k = j) then Some ai
              else if decide (k = i) then Some aj else zlookup arr k.
Proof.
  intros Hi Hj.
  pose proof (zlookup_Some _ _ _ Hi) as Hri.
  pose proof (zlookup_Some _ _ _ Hj) as Hrj.
  exists (<[Z.to_nat j := ai]> (<[Z.to_nat i := aj]> arr)).
  split; [|split; [|split]].
  - unfold swap. rewrite (vget_zlookup _ _ _ Hi), (vget_zlookup _ _ _ Hj). simpl.
    rewrite (vset_in_range _ _ _ Hri). simpl.
    apply vset_in_range. by rewrite size_insert.
  - by rewrite !size_insert.
  - symmetry. apply Permutation_insert_swap.
    + unfold zlookup in Hi. by destruct (0 <=? i).
    + unfold zlookup in Hj. by destruct (0 <=? j).
  - intros k. rewrite zlookup_insert by (by rewrite size_insert).
    destruct (decide (k = j)); [done|]. by rewrite zlookup_insert.
Qed.

Lemma size_Permutation (arr arr' : vec) : arr ≡ₚ arr' -> size arr' = size arr.
Proof. intros H. unfold size. by rewrite H. Qed.

(** ** Sorted vectors *)

#[local] Instance leP_trans : Transitive leP.
Proof. intros a b c. apply le_trans. Qed.

Lemma lookup_StronglySorted (arr : vec) :
  (forall (i j : nat) x y, (i < j)%nat ->
     arr !! i = Some x -> arr !! j = Some y -> leP x y) ->
  StronglySorted leP arr.
Proof.
  induction arr as [|a arr IH]; intros H; constructor.
  - apply IH. intros i j x y Hij Hi Hj. by apply (H (S i) (S j) x y); [lia|..].
  - apply Forall_forall. intros y [n Hn]%list_elem_of_lookup.
    by apply (H O (S n) a y); [lia|..].
Qed.

Lemma sorted_upto_sorted (arr : vec) : sorted_upto arr (size arr) -> sorted arr.
Proof.
  intros H. apply StronglySorted_Sorted, lookup_StronglySorted.
  intros i j x y Hij Hi Hj.
  apply (H (Z.of_nat i) (Z.of_nat j) x y); [lia|..].
  - apply lookup_lt_Some in Hj. unfold size. lia.
  - unfold zlookup. destruct (Z.leb_spec 0 (Z.of_nat i)); [|lia]. by rewrite Nat2Z.id.
  - unfold zlookup. destruct (Z.leb_spec 0 (Z.of_nat j)); [|lia]. by rewrite Nat2Z.id.
Qed.

Lemma sorted_short (arr : vec) : size arr <= 1 -> sorted arr.
Proof.
  unfold size. destruct arr as [|a [|b arr]]; simpl; intros H; [..|lia];
    repeat constructor.
Qed.

(** ** selectionSort *)

(** The inner loop returns the index of a least record of [arr[i..n)]. *)
Lemma sel_min_spec (arr : vec) (n i : Z) :
  n <= size arr -> 0 <= i ->
  forall fuel j m,
    i <= m < j -> j <= n -> n - j <= Z.of_nat fuel ->
    (forall k x y, i <= k < j ->
       zlookup arr k = Some x -> zlookup arr m = Some y -> le y x = true) ->
    exists m',
      sel_min fuel arr n j m = Ok m' /\ i <= m' < n /\
      forall k x y, i <= k < n ->
        zlookup arr k = Some x -> zlookup arr m' = Some y -> le y x = true.
Proof.
  intros Hn Hi fuel.
  induction fuel as [|fuel IH]; intros j m Hm Hj Hfuel Hmin; simpl;
    destruct (Z.ltb_spec j n) as [Hlt|Hge];
    try (exists m; split; [done|]; split; [lia|];
         intros k x y Hk; apply Hmin; lia).
  { lia. }
  destruct (zlookup_in_range arr j) as [aj Haj]; [lia|].
  destruct (zlookup_in_range arr m) as [am Ham]; [lia|].
  rewrite (vget_zlookup _ _ _ Haj), (vget_zlookup _ _ _ Ham). simpl.
  apply IH; [|lia|lia|].
  { destruct (lt aj am); lia. }
  intros k x y Hk Hx Hy.
  destruct (lt aj am) eqn:Hlt_aj.
  - (* the new minimum is [arr[j]] *)
    rewrite Haj in Hy. injection Hy as <-.
    destruct (decide (k = j)) as [->|Hne].
    + rewrite Haj in Hx. injection Hx as <-. apply le_refl.
    + apply le_trans with am; [by apply lt_le|].
      apply (Hmin k x am); [lia|done|done].
  - rewrite Ham in Hy. injection Hy as <-.
    destruct (decide (k = j)) as [->|Hne].
    + rewrite Haj in Hx. injection Hx as <-. unfold le. by rewrite Hlt_aj.
    + apply (Hmin k x am); [lia|done|done].
Qed.

(** The outer loop: the first [i] slots are sorted and below the rest. *)
Lemma sel_loop_spec (arr0 : vec) (n : Z) :
  n = size arr0 ->
  forall fuel arr i,
    arr0 ≡ₚ arr -> 0 <= i -> i <= n - 1 \/ i = 0 -> n - 1 - i <= Z.of_nat fuel ->
    sorted_upto arr i ->
    (forall k1 k2 x y, k1 < i -> i <= k2 ->
       zlookup arr k1 = Some x -> zlookup arr k2 = Some y -> le x y = true) ->
    exists arr', sel_loop fuel arr n i = Ok arr' /\ arr0 ≡ₚ arr' /\ sorted arr'.
Proof.
  intros Hn fuel.
  induction fuel as [|fuel IH]; intros arr i Hperm Hi Hi' Hfuel Hsorted Hsplit;
    pose proof (size_Permutation _ _ Hperm) as Hsize; simpl;
    destruct (Z.ltb_spec i (n - 1)) as [Hlt|Hge];
    try (exists arr; split; [done|]; split; [done|];
         destruct (decide (n <= 1)) as [Hshort|Hlong];
         [ apply sorted_short; lia |];
         apply sorted_upto_sorted; rewrite Hsize, <- Hn;
         intros k1 k2 x y Hk Hk2 Hx Hy;
         destruct (decide (k2 < i));
         [ by apply (Hsorted k1 k2 x y); [lia|lia|..] |];
         destruct (decide (k1 = k2)) as [->|Hne];
         [ rewrite Hx in Hy; injection Hy as <-; apply le_refl |];
         apply (Hsplit k1 k2 x y); [lia|lia|done|done]).
  { lia. }
  destruct (sel_min_spec arr n i ltac:(lia) Hi (length arr) (i + 1) i)
    as (m & -> & Hm & Hmin); [lia|lia|unfold size in *; lia|..].
  { intros k x y Hk Hx Hy. assert (k = i) as -> by lia.
    rewrite Hx in Hy. injection Hy as <-. apply le_refl. }
  simpl.
  destruct (zlookup_in_range arr i) as [ai Hai]; [lia|].
  destruct (zlookup_in_range arr m) as [am Ham]; [lia|].
  assert (exists arr1,
    (if negb (m =? i) then swap arr i m else Ok arr) = Ok arr1 /\
    size arr1 = size arr /\ arr ≡ₚ arr1 /\
    forall k, zlookup arr1 k =
              if decide (k = m) then Some ai
              else if decide (k = i) then Some am else zlookup arr k)
    as (arr1 & -> & Hsize1 & Hperm1 & Hlook).
  { destruct (Z.eqb_spec m i) as [->|Hne]; simpl.
    - exists arr. split; [done|]. split; [done|]. split; [done|].
      intros k. by destruct (decide (k = i)) as [->|].
    - by apply swap_spec. }
  assert (zlookup arr1 i = Some am) as Hnew_i.
  { rewrite Hlook. destruct (decide (i = m)) as [<-|_]; [congruence|].
    by destruct (decide (i = i)). }
  assert (forall k, k <> i -> k <> m -> zlookup arr1 k = zlookup arr k) as Hsame.
  { intros k ? ?. rewrite Hlook. by repeat destruct (decide _). }
  assert (m <> i -> zlookup arr1 m = Some ai) as Hnew_m.
  { intros ?. rewrite Hlook. by destruct (decide (m = m)). }
  clear Hlook.
  simpl. apply IH; [by etrans|lia|lia|lia|..].
  - (* the first [i + 1] slots are sorted *)
    intros k1 k2 x y Hk Hk2 Hx Hy.
    destruct (decide (k2 = i)) as [->|Hk2i].
    + rewrite Hnew_i in Hy. injection Hy as <-.
      destruct (decide (k1 = i)) as [->|Hk1].
      * rewrite Hnew_i in Hx. injection Hx as <-. apply le_refl.
      * rewrite Hsame in Hx by lia.
        apply (Hsplit k1 m x am); [lia|lia|done|done].
    + rewrite Hsame in Hx, Hy by lia. apply (Hsorted k1 k2); [lia|lia|done|done].
  - (* they are below the others *)
    intros k1 k2 x y Hk Hk2 Hx Hy.
    destruct (decide (k1 = i)) as [->|Hk1i].
    + rewrite Hnew_i in Hx. injection Hx as <-.
      destruct (decide (k2 = m)) as [->|Hk2m].
      * rewrite Hnew_m in Hy by lia. injection Hy as <-.
        apply (Hmin i ai am); [lia|done|done].
      * rewrite Hsame in Hy by lia.
        pose proof (zlookup_Some _ _ _ Hy).
        apply (Hmin k2 y am); [lia|done|done].
    + rewrite Hsame in Hx by lia.
      destruct (decide (k2 = m)) as [->|Hk2m].
      * rewrite Hnew_m in Hy by lia. injection Hy as <-.
        apply (Hsplit k1 i x ai); [lia|lia|done|done].
      * rewrite Hsame in Hy by lia.
        apply (Hsplit k1 k2 x y); [lia|lia|done|done].
Qed.

Lemma to_int_small (z : Z) : INT_MIN <= z <= INT_MAX -> to_int z = z.
Proof.
  unfold to_int, INT_MIN, INT_MAX. intros H.
  rewrite Z.mod_small; lia.
Qed.

Lemma selectionSort_sorts (arr : vec) :
  size arr <= INT_MAX ->
  exists arr', selectionSort arr = Ok arr' /\ arr ≡ₚ arr' /\ sorted arr'.
Proof.
  intros Hsmall. unfold selectionSort.
  pose proof (size_nonneg arr) as Hpos.
  rewrite to_int_small by (unfold INT_MIN; lia).
  destruct (Z.eqb_spec (size arr) INT_MIN) as [Heq|_];
    [unfold INT_MIN in Heq; lia|].
  apply (sel_loop_spec arr (size arr) eq_refl); [done|lia|lia|unfold size; lia|..].
  - intros i j x y Hij Hj Hx. apply zlookup_Some in Hx. lia.
  - intros k1 k2 x y Hk1 _ Hx. apply zlookup_Some in Hx. lia.
Qed.

(** ** insertionSort *)

Lemma zlookup_nat (arr : vec) (i : Z) :
  0 <= i -> zlookup arr i = arr !! Z.to_nat i.
Proof. intros Hi. unfold zlookup. by destruct (Z.leb_spec 0 i); [|lia]. Qed.

(** The inner loop keeps [ins_inv] and stops below a record that is not
    greater than [key]. *)
Lemma ins_shift_spec (arr0 : vec) (key : Passenger) (i : Z) :
  0 <= i < size arr0 ->
  forall fuel arr j,
    -1 <= j < i -> j + 1 <= Z.of_nat fuel ->
    ins_inv arr0 arr key i j ->
    exists arr' j',
      ins_shift fuel arr key j = Ok (arr', j') /\ -1 <= j' <= j /\
      ins_inv arr0 arr' key i j' /\
      forall x, zlookup arr0 j' = Some x -> le x key = true.
Proof.
  intros Hi fuel.
  induction fuel as [|fuel IH]; intros arr j Hj Hfuel Hinv;
    destruct Hinv as (Hsize & Hperm & Hlow & Hmid & Hgt & Hhigh).
  - (* no fuel is needed below the first slot *)
    assert (j = -1) as -> by lia. exists arr, (-1). simpl.
    split; [done|]. split; [lia|]. split; [by repeat split|].
    intros x Hx. apply zlookup_Some in Hx. lia.
  - cbn [ins_shift]. unfold ins_cond.
    destruct (Z.leb_spec 0 j) as [Hj0|Hneg]; cycle 1.
    { assert (j = -1) as -> by lia. exists arr, (-1). simpl.
      split; [done|]. split; [lia|]. split; [by repeat split|].
      intros x Hx. apply zlookup_Some in Hx. lia. }
    destruct (zlookup_in_range arr0 j) as [aj Haj]; [lia|].
    assert (zlookup arr j = Some aj) as Haj' by (rewrite Hlow; [done|lia]).
    rewrite (vget_zlookup _ _ _ Haj'). simpl.
    unfold gt. destruct (lt key aj) eqn:Hlt; cycle 1.
    { exists arr, j. split; [done|]. split; [lia|]. split; [by repeat split|].
      intros x Hx. rewrite Haj in Hx. injection Hx as <-.
      unfold le. by rewrite Hlt. }
    rewrite vset_in_range by lia. simpl.
    destruct (IH (<[Z.to_nat (j + 1) := aj]> arr) (j - 1)) as (arr' & j' & -> & Hj' & Hinv' & Hstop);
      [lia|lia| |].
    2: { exists arr', j'. split; [done|]. split; [lia|]. by split. }
    split; [by rewrite size_insert|].
    split; [|split; [|split; [|split]]].
    + (* the records are those of [arr0] *)
      rewrite <- Hperm. replace (j - 1 + 1) with j by lia.
      rewrite <- (list_insert_insert_eq arr (Z.to_nat (j + 1)) aj key).
      apply Permutation_insert_swap.
      * rewrite list_lookup_insert_eq; [done|]. unfold size in *. lia.
      * rewrite list_lookup_insert_ne by lia.
        by rewrite <- zlookup_nat.
    + intros k Hk. rewrite zlookup_insert by lia.
      destruct (decide (k = j + 1)); [lia|]. apply Hlow. lia.
    + intros k Hk. rewrite zlookup_insert by lia.
      destruct (decide (k = j + 1)) as [->|Hne].
      * replace (j + 1 - 1) with j by lia. done.
      * apply Hmid. lia.
    + intros k x Hk Hx.
      destruct (decide (k = j)) as [->|Hne]; [congruence|].
      apply (Hgt k); [lia|done].
    + intros k Hk. rewrite zlookup_insert by lia.
      destruct (decide (k = j + 1)); [lia|]. by apply Hhigh.
Qed.

(** Putting [key] into the free slot extends the sorted run by one. *)
Lemma ins_place_sorted (arr0 arr : vec) (key : Passenger) (i j : Z) :
  0 <= i < size arr0 -> -1 <= j < i ->
  zlookup arr0 i = Some key ->
  sorted_upto arr0 i ->
  ins_inv arr0 arr key i j ->
  (forall x, zlookup arr0 j = Some x -> le x key = true) ->
  sorted_upto (<[Z.to_nat (j + 1) := key]> arr) (i + 1).
Proof.
  intros Hi Hj Hkey Hsorted (Hsize & Hperm & Hlow & Hmid & Hgt & Hhigh) Hstop.
  assert (forall k, zlookup (<[Z.to_nat (j + 1) := key]> arr) k =
            if decide (k = j + 1) then Some key
            else if decide (k <= j) then zlookup arr0 k
            else if decide (k <= i) then zlookup arr0 (k - 1)
            else zlookup arr0 k) as Hlook.
  { intros k. rewrite zlookup_insert by lia.
    destruct (decide (k = j + 1)); [done|].
    destruct (decide (k <= j)); [by apply Hlow|].
    destruct (decide (k <= i)); [apply Hmid; lia|apply Hhigh; lia]. }
  intros k1 k2 x y Hk Hk2. rewrite !Hlook.
  destruct (decide (k2 <= i)); [|lia].
  destruct (decide (k1 <= i)); [|lia].
  destruct (decide (k1 = j + 1)) as [->|Hk1]; destruct (decide (k2 = j + 1)) as [->|Hk2'].
  - intros [= <-] [= <-]. apply le_refl.
  - destruct (decide (k2 <= j)); [lia|]. intros [= <-] Hy.
    apply lt_le. apply (Hgt (k2 - 1)); [lia|done].
  - destruct (decide (k1 <= j)); [|lia]. intros Hx [= <-].
    destruct (zlookup_in_range arr0 j) as [aj Haj].
    { apply zlookup_Some in Hx. lia. }
    apply le_trans with aj; [|by apply Hstop].
    apply (Hsorted k1 j); [lia|lia|done|done].
  - destruct (decide (k1 <= j)); destruct (decide (k2 <= j)); try lia.
    + apply Hsorted; lia.
    + apply Hsorted; lia.
    + apply Hsorted; lia.
Qed.

Lemma to_size_t_small (z : Z) : 0 <= z <= LONG_MAX -> to_size_t z = z.
Proof. unfold to_size_t, LONG_MAX. intros H. apply Z.mod_small. lia. Qed.

Lemma sorted_upto_ge (arr : vec) (n : Z) :
  size arr <= n -> sorted_upto arr n -> sorted arr.
Proof.
  intros Hn H. apply sorted_upto_sorted.
  intros i j x y Hij Hj. apply H; lia.
Qed.

Lemma ins_loop_spec (arr0 : vec) :
  size arr0 <= INT_MAX ->
  forall fuel arr i,
    arr0 ≡ₚ arr -> 1 <= i -> i <= size arr0 \/ i = 1 ->
    size arr0 - i <= Z.of_nat fuel ->
    sorted_upto arr i ->
    exists arr', ins_loop fuel arr i = Ok arr' /\ arr0 ≡ₚ arr' /\ sorted arr'.
Proof.
  intros Hsmall fuel.
  induction fuel as [|fuel IH]; intros arr i Hperm Hi Hi' Hfuel Hsorted;
    pose proof (size_Permutation _ _ Hperm) as Hsize;
    pose proof (size_nonneg arr0) as Hpos; simpl;
    (rewrite to_size_t_small by (unfold INT_MAX, LONG_MAX in *; lia));
    destruct (Z.ltb_spec i (size arr)) as [Hlt|Hge];
    try (exists arr; split; [done|]; split; [done|];
         apply (sorted_upto_ge arr i); [lia|done]).
  { lia. }
  destruct (zlookup_in_range arr i) as [key Hkey]; [lia|].
  rewrite (vget_zlookup _ _ _ Hkey). simpl.
  destruct (ins_shift_spec arr key i ltac:(lia) (length arr) arr (i - 1))
    as (arr1 & j & -> & Hj & Hinv & Hstop); [lia|unfold size in *; lia|..].
  { split; [done|]. replace (i - 1 + 1) with i by lia.
    split; [|split; [|split; [|split]]]; try done.
    - rewrite list_insert_id; [done|]. by rewrite <- zlookup_nat by lia.
    - intros k Hk. lia.
    - intros k x Hk. lia. }
  simpl.
  pose proof Hinv as (Hsize1 & Hperm1 & _).
  rewrite vset_in_range by lia. simpl.
  destruct (Z.eqb_spec i INT_MAX) as [->|_]; [lia|].
  apply IH; [|lia|lia|lia|].
  - by rewrite Hperm1.
  - apply (ins_place_sorted arr arr1 key i j); try done; lia.
Qed.

Lemma insertionSort_sorts (arr : vec) :
  size arr <= INT_MAX ->
  exists arr', insertionSort arr = Ok arr' /\ arr ≡ₚ arr' /\ sorted arr'.
Proof.
  intros Hsmall. unfold insertionSort.
  pose proof (size_nonneg arr) as Hpos.
  apply (ins_loop_spec arr Hsmall); [done|lia|lia|unfold size; lia|].
  intros i j x y Hij Hj Hx Hy.
  assert (i = j) as ->.
  { apply zlookup_Some in Hx. lia. }
  rewrite Hx in Hy. injection Hy as <-. apply le_refl.
Qed.

(** ** quickSortR *)

(** The upward scan stops at the first record that is not less than the
    pivot, at the latest at a record [s] known not to be less. *)
Lemma scan_up_spec (arr : vec) (p : Passenger) (s : Z) (xs : Passenger) :
  zlookup arr s = Some xs -> lt xs p = false ->
  forall fuel i,
    0 <= i <= s -> s - i <= Z.of_nat fuel ->
    exists i' y,
      scan_up fuel arr p i = Ok i' /\ i <= i' <= s /\
      zlookup arr i' = Some y /\ lt y p = false /\
      forall k x, i <= k < i' -> zlookup arr k = Some x -> lt x p = true.
Proof.
  intros Hs Hxs fuel. pose proof (zlookup_Some _ _ _ Hs) as Hrs.
  induction fuel as [|fuel IH]; intros i Hi Hfuel; simpl;
    destruct (zlookup_in_range arr i) as [ai Hai]; try lia;
    rewrite (vget_zlookup _ _ _ Hai); simpl;
    destruct (lt ai p) eqn:Hlt;
    try (exists i, ai; split; [done|]; split; [lia|]; split; [done|];
         split; [done|]; intros k x Hk; lia).
  - assert (i = s) as -> by lia. congruence.
  - assert (i <> s) as Hne by (intros ->; congruence).
    destruct (IH (i + 1)) as (i' & y & -> & Hi' & Hy & Hyp & Hbelow); [lia|lia|].
    exists i', y. split; [done|]. split; [lia|]. split; [done|]. split; [done|].
    intros k x Hk Hx. destruct (decide (k = i)) as [->|Hki]; [congruence|].
    apply (Hbelow k); [lia|done].
Qed.

(** The downward scan, likewise. *)
Lemma scan_down_spec (arr : vec) (p : Passenger) (s : Z) (xs : Passenger) :
  zlookup arr s = Some xs -> lt p xs = false ->
  forall fuel j,
    s <= j < size arr -> j - s <= Z.of_nat fuel ->
    exists j' y,
      scan_down fuel arr p j = Ok j' /\ s <= j' <= j /\
      zlookup arr j' = Some y /\ lt p y = false /\
      forall k x, j' < k <= j -> zlookup arr k = Some x -> lt p x = true.
Proof.
  intros Hs Hxs fuel. pose proof (zlookup_Some _ _ _ Hs) as Hrs.
  induction fuel as [|fuel IH]; intros j Hj Hfuel; simpl;
    destruct (zlookup_in_range arr j) as [aj Haj]; try lia;
    rewrite (vget_zlookup _ _ _ Haj); simpl; unfold gt;
    destruct (lt p aj) eqn:Hlt;
    try (exists j, aj; split; [done|]; split; [lia|]; split; [done|];
         split; [done|]; intros k x Hk; lia).
  - assert (j = s) as -> by lia. congruence.
  - assert (j <> s) as Hne by (intros ->; congruence).
    destruct (IH (j - 1)) as (j' & y & -> & Hj' & Hy & Hyp & Habove); [lia|lia|].
    exists j', y. split; [done|]. split; [lia|]. split; [done|]. split; [done|].
    intros k x Hk Hx. destruct (decide (k = j)) as [->|Hkj]; [congruence|].
    apply (Habove k); [lia|done].
Qed.

(** The partition loop ends with the two indices crossed, each having
    moved at least one step, and the vector split around the pivot. *)
Lemma partition_spec (p : Passenger) :
  forall fuel arr i j,
    part_pre arr p i j -> j - i + 1 <= Z.of_nat fuel ->
    exists arr' i' j',
      partition fuel arr p i j = Ok (arr', i', j') /\ part_post arr arr' p i' j'.
Proof.
  induction fuel as [|fuel IH]; intros arr i j Hpre Hfuel;
    destruct Hpre as (Hij & Hj & Hlow & Hhigh & (su & xu & Hsu & Hxu & Hup)
                      & (sd & xd & Hsd & Hxd & Hdown) & Hmoved); [lia|].
  cbn [partition].
  pose proof (zlookup_Some _ _ _ Hxu) as Hru.
  pose proof (zlookup_Some _ _ _ Hxd) as Hrd.
  destruct (scan_up_spec arr p su xu Hxu Hup (length arr) i)
    as (i1 & ai & -> & Hi1 & Hai & Hai_p & Hbelow); [lia|unfold size in *; lia|].
  destruct (scan_down_spec arr p sd xd Hxd Hdown (length arr) j)
    as (j1 & aj & -> & Hj1 & Haj & Haj_p & Habove); [lia|unfold size in *; lia|].
  simpl.
  assert (low_side arr p i1) as Hlow1.
  { intros k x Hk Hx. destruct (decide (k < i)); [by apply (Hlow k)|].
    apply lt_asym. apply (Hbelow k); [lia|done]. }
  assert (high_side arr p j1) as Hhigh1.
  { intros k x Hk Hx. destruct (decide (j < k)); [by apply (Hhigh k)|].
    apply lt_asym. apply (Habove k); [lia|done]. }
  destruct (Z.leb_spec i1 j1) as [Hle|Hgt].
  - (* the records are exchanged and both indices move *)
    destruct (swap_spec arr i1 j1 ai aj Hai Haj) as (arr1 & -> & Hsize1 & Hperm1 & Hlook).
    simpl.
    assert (low_side arr1 p (i1 + 1)) as Hlow2.
    { intros k x Hk. rewrite Hlook.
      destruct (decide (k = j1)) as [->|?]; [assert (i1 = j1) as -> by lia; congruence|].
      destruct (decide (k = i1)) as [->|?]; [congruence|].
      apply Hlow1. lia. }
    assert (high_side arr1 p (j1 - 1)) as Hhigh2.
    { intros k x Hk. rewrite Hlook.
      destruct (decide (k = j1)) as [->|?]; [congruence|].
      destruct (decide (k = i1)) as [->|?]; [lia|].
      apply Hhigh1. lia. }
    destruct (Z.leb_spec (i1 + 1) (j1 - 1)) as [Hcont|Hstop].
    + destruct (IH arr1 (i1 + 1) (j1 - 1)) as (arr' & i' & j' & -> & Hpost); [|lia|].
      { split; [lia|]. split; [lia|]. split; [done|]. split; [done|].
        split; [|split].
        - exists j1, ai. split; [lia|]. split; [|done].
          rewrite Hlook. by destruct (decide (j1 = j1)).
        - exists i1, aj. split; [lia|]. split; [|done].
          rewrite Hlook. destruct (decide (i1 = j1)); [lia|].
          by destruct (decide (i1 = i1)).
        - left. lia. }
      exists arr', i', j'. split; [done|].
      destruct Hpost as (Hperm' & Hpost). split; [by etrans|done].
    + exists arr1, (i1 + 1), (j1 - 1). split; [done|].
      split; [done|]. split; [lia|]. split; [lia|]. split; [lia|]. by split.
  - (* the scans have crossed, so a swap was made before *)
    simpl. destruct (Z.leb_spec i1 j1) as [?|_]; [lia|].
    exists arr, i1, j1. split; [done|].
    split; [done|]. split; [lia|].
    destruct Hmoved as [Hmoved|(s & x & Hs & Hx & Hx1 & Hx2)].
    + split; [lia|]. split; [lia|]. by split.
    + (* a record equivalent to the pivot in [i..j] stops both scans *)
      exfalso.
      assert (i1 <= s).
      { destruct (decide (i1 <= s)); [done|].
        pose proof (Hbelow s x ltac:(lia) Hx). congruence. }
      assert (s <= j1).
      { destruct (decide (s <= j1)); [done|].
        pose proof (Habove s x ltac:(lia) Hx). congruence. }
      lia.
Qed.

Lemma to_long_small (z : Z) : - LONG_MAX - 1 <= z <= LONG_MAX -> to_long z = z.
Proof.
  unfold to_long, LONG_MAX. intros H. rewrite Z.mod_small; lia.
Qed.

Lemma half_in_range (n : Z) : 1 <= n -> 0 <= Z.shiftr n 1 < n.
Proof.
  intros Hn. rewrite Z.shiftr_div_pow2 by lia. change (2 ^ 1) with 2.
  split; [apply Z.div_pos; lia|]. apply Z.div_lt_upper_bound; lia.
Qed.

Lemma size_app (l k : vec) : size (l ++ k) = size l + size k.
Proof. unfold size. rewrite length_app. lia. Qed.

Lemma size_take (arr : vec) (k : Z) :
  0 <= k <= size arr -> size (take (Z.to_nat k) arr) = k.
Proof. unfold size. intros H. rewrite length_take. lia. Qed.

Lemma size_drop (arr : vec) (k : Z) :
  0 <= k <= size arr -> size (drop (Z.to_nat k) arr) = size arr - k.
Proof. unfold size. intros H. rewrite length_drop. lia. Qed.

Lemma slice_in_range (arr : vec) (a b : Z) :
  0 <= a <= b -> b <= size arr ->
  slice arr a b = Ok (take (Z.to_nat (b - a)) (drop (Z.to_nat a) arr)).
Proof.
  intros Ha Hb. unfold slice.
  destruct (Z.leb_spec 0 a); [|lia]. destruct (Z.leb_spec a b); [|lia].
  by destruct (Z.leb_spec b (size arr)); [|lia].
Qed.

Lemma slice_past_end (arr : vec) (a b : Z) : size arr < b -> slice arr a b = Undef.
Proof.
  intros Hb. unfold slice.
  destruct (Z.leb_spec b (size arr)); [lia|]. by rewrite andb_false_r.
Qed.

Lemma copy_into_in_range (arr src : vec) (off : Z) :
  0 <= off -> off + size src <= size arr ->
  copy_into arr off src =
    Ok (take (Z.to_nat off) arr ++ src ++ drop (Z.to_nat (off + size src)) arr).
Proof.
  intros Ha Hb. unfold copy_into.
  destruct (Z.leb_spec 0 off); [|lia].
  by destruct (Z.leb_spec (off + size src) (size arr)); [|lia].
Qed.

Lemma elem_of_take_zlookup (arr : vec) (n : nat) (x : Passenger) :
  x ∈ take n arr -> exists k, k < Z.of_nat n /\ zlookup arr k = Some x.
Proof.
  intros (i & Hi & Hlt)%elem_of_take. exists (Z.of_nat i). split; [lia|].
  by rewrite zlookup_nat, Nat2Z.id by lia.
Qed.

Lemma elem_of_drop_zlookup (arr : vec) (n : nat) (x : Passenger) :
  x ∈ drop n arr -> exists k, Z.of_nat n <= k /\ zlookup arr k = Some x.
Proof.
  intros [i Hi]%list_elem_of_lookup. rewrite lookup_drop in Hi.
  exists (Z.of_nat (n + i)). split; [lia|].
  by rewrite zlookup_nat, Nat2Z.id by lia.
Qed.

Lemma StronglySorted_pairwise (l : vec) :
  (forall x y, x ∈ l -> y ∈ l -> leP x y) -> StronglySorted leP l.
Proof.
  induction l as [|a l IH]; intros H; constructor.
  - apply IH. intros x y Hx Hy. apply H; by right.
  - apply Forall_forall. intros y Hy. apply H; [by left|by right].
Qed.

Lemma sorted_strongly (l : vec) : sorted l <-> StronglySorted leP l.
Proof.
  split; [apply (Sorted_StronglySorted leP)|apply StronglySorted_Sorted].
Qed.

(** The loop starts on the whole vector, with the pivot inside it. *)
Lemma part_pre_whole (arr : vec) (p : Passenger) (mid : Z) :
  zlookup arr mid = Some p -> part_pre arr p 0 (size arr - 1).
Proof.
  intros Hp. pose proof (zlookup_Some _ _ _ Hp) as Hmid.
  split; [lia|]. split; [lia|]. split; [|split; [|split; [|split]]].
  - intros k x Hk Hx. apply zlookup_Some in Hx. lia.
  - intros k x Hk Hx. apply zlookup_Some in Hx. lia.
  - exists mid, p. split; [lia|]. split; [done|apply lt_irrefl].
  - exists mid, p. split; [lia|]. split; [done|apply lt_irrefl].
  - right. exists mid, p. split; [lia|]. split; [done|]. split; apply lt_irrefl.
Qed.

(** Sorted pieces on the two sides of a partition, with the records
    between the crossed indices in the middle, make a sorted vector. *)
Lemma partition_glue (arr1 L R : vec) (p : Passenger) (i j : Z) :
  -1 <= j -> j < i -> i <= size arr1 ->
  low_side arr1 p i -> high_side arr1 p j ->
  L ≡ₚ take (Z.to_nat (j + 1)) arr1 -> sorted L ->
  R ≡ₚ drop (Z.to_nat i) arr1 -> sorted R ->
  let M := take (Z.to_nat (i - (j + 1))) (drop (Z.to_nat (j + 1)) arr1) in
  arr1 ≡ₚ L ++ M ++ R /\ sorted (L ++ M ++ R).
Proof.
  intros Hj Hji Hi Hlow Hhigh HL HsL HR HsR M.
  assert (drop (Z.to_nat i) arr1 =
          drop (Z.to_nat (i - (j + 1))) (drop (Z.to_nat (j + 1)) arr1)) as Hdrop.
  { rewrite drop_drop. f_equal. lia. }
  split.
  - rewrite HL, HR, Hdrop. unfold M. by rewrite !take_drop.
  - assert (forall x, x ∈ L -> lt p x = false) as HLp.
    { intros x Hx. rewrite HL in Hx.
      apply elem_of_take_zlookup in Hx as (k & Hk & Hx).
      apply (Hlow k); [lia|done]. }
    assert (forall x, x ∈ M -> lt p x = false /\ lt x p = false) as HMp.
    { intros x Hx. unfold M in Hx.
      apply elem_of_take_zlookup in Hx as (k & Hk & Hx).
      pose proof (zlookup_Some _ _ _ Hx) as Hrk.
      rewrite zlookup_nat, lookup_drop, <- (Nat2Z.id (_ + _)), <- zlookup_nat in Hx by lia.
      split; [apply (Hlow _ x) in Hx|apply (Hhigh _ x) in Hx]; done || lia. }
    assert (forall x, x ∈ R -> lt x p = false) as HRp.
    { intros x Hx. rewrite HR in Hx.
      apply elem_of_drop_zlookup in Hx as (k & Hk & Hx).
      apply (Hhigh k); [lia|done]. }
    assert (forall x y, lt p x = false -> lt y p = false -> leP x y) as Hvia.
    { intros x y Hx Hy. apply (le_trans x p y); unfold le; by rewrite ?Hx, ?Hy. }
    apply sorted_strongly. apply sorted_strongly in HsL, HsR.
    apply StronglySorted_app_2; [|done|apply StronglySorted_app_2; [| |done]].
    + intros x y Hx [Hy|Hy]%elem_of_app; apply Hvia; auto.
      * by apply HMp.
    + intros x y Hx Hy. apply Hvia; [by apply HMp|by apply HRp].
    + apply StronglySorted_pairwise. intros x y Hx Hy.
      apply Hvia; by apply HMp.
Qed.

(** The sort proper: on a non-empty vector no access leaves the vector,
    both recursive calls get shorter non-empty vectors, and the result is
    the sorted vector. *)
Lemma quickSortR_rec_sorts :
  forall depth arr,
    arr <> [] -> size arr <= LONG_MAX -> size arr <= Z.of_nat depth ->
    exists arr', quickSortR_rec depth arr = Ok arr' /\ arr ≡ₚ arr' /\ sorted arr'.
Proof.
  induction depth as [|depth IH]; intros arr Hne Hsmall Hdepth.
  { destruct arr; [done|]. unfold size in Hdepth. simpl in Hdepth. lia. }
  pose proof (size_nonempty _ Hne) as Hn.
  cbn [quickSortR_rec].
  rewrite to_size_t_small, to_long_small by (unfold LONG_MAX in *; lia).
  destruct (zlookup_in_range arr (Z.shiftr (size arr) 1)) as [p Hp];
    [by apply half_in_range|].
  rewrite (vget_zlookup _ _ _ Hp). simpl.
  destruct (partition_spec p (length arr) arr 0 (size arr - 1))
    as (arr1 & i & j & -> & Hperm1 & Hji & Hi & Hj & Hlow & Hhigh);
    [|unfold size; lia|].
  { by apply (part_pre_whole arr p (Z.shiftr (size arr) 1)). }
  simpl.
  pose proof (size_Permutation _ _ Hperm1) as Hsize1.
  (* the left part *)
  assert (exists L,
    (if 0 <? j
     then left ← slice arr1 0 (j + 1);
          left' ← quickSortR_rec depth left; copy_into arr1 0 left'
     else Ok arr1) = Ok (L ++ drop (Z.to_nat (j + 1)) arr1) /\
    L ≡ₚ take (Z.to_nat (j + 1)) arr1 /\ sorted L)
    as (L & -> & HL & HsL).
  { destruct (Z.ltb_spec 0 j) as [Hpos|Hnpos].
    - rewrite slice_in_range by lia. simpl.
      replace (j + 1 - 0) with (j + 1) by lia.
      change (Z.to_nat 0) with O. rewrite drop_0.
      destruct (IH (take (Z.to_nat (j + 1)) arr1)) as (L & -> & HL & HsL).
      + intros Hnil. apply (f_equal size) in Hnil.
        rewrite size_take in Hnil by lia. unfold size in Hnil. simpl in Hnil. lia.
      + rewrite size_take; lia.
      + rewrite size_take; lia.
      + simpl. pose proof (size_Permutation _ _ HL) as HsizeL.
        rewrite size_take in HsizeL by lia.
        rewrite copy_into_in_range by lia. simpl.
        exists L. rewrite HsizeL. replace (0 + (j + 1)) with (j + 1) by lia.
        by split.
    - exists (take (Z.to_nat (j + 1)) arr1). rewrite take_drop.
      split; [done|]. split; [done|].
      apply sorted_short. rewrite size_take; lia. }
  simpl.
  pose proof (size_Permutation _ _ HL) as HsizeL.
  rewrite size_take in HsizeL by lia.
  set (arr2 := L ++ drop (Z.to_nat (j + 1)) arr1).
  assert (size arr2 = size arr) as Hsize2.
  { unfold arr2. rewrite size_app, size_drop; lia. }
  rewrite to_size_t_small by (unfold LONG_MAX in *; lia).
  set (M := take (Z.to_nat (i - (j + 1))) (drop (Z.to_nat (j + 1)) arr1)).
  assert (take (Z.to_nat i) arr2 = L ++ M) as Htake2.
  { unfold arr2, M. rewrite take_app_ge by (unfold size in *; lia).
    do 2 f_equal. unfold size in *. lia. }
  assert (drop (Z.to_nat i) arr2 = drop (Z.to_nat i) arr1) as Hdrop2.
  { unfold arr2. rewrite drop_app_ge by (unfold size in *; lia).
    rewrite drop_drop. f_equal. unfold size in *. lia. }
  (* the right part *)
  assert (exists R,
    (if i <? size arr2
     then right ← slice arr2 i (size arr2);
          right' ← quickSortR_rec depth right; copy_into arr2 i right'
     else Ok arr2) = Ok (L ++ M ++ R) /\
    R ≡ₚ drop (Z.to_nat i) arr1 /\ sorted R)
    as (R & -> & HR & HsR).
  { destruct (Z.ltb_spec i (size arr2)) as [Hlt|Hge].
    - rewrite slice_in_range by lia. simpl.
      rewrite take_ge by (rewrite length_drop; unfold size; lia).
      rewrite Hdrop2.
      destruct (IH (drop (Z.to_nat i) arr1)) as (R & -> & HR & HsR).
      + intros Hnil. apply (f_equal size) in Hnil.
        rewrite size_drop in Hnil by lia. unfold size in Hnil at 2. simpl in Hnil. lia.
      + rewrite size_drop; lia.
      + rewrite size_drop; lia.
      + simpl. pose proof (size_Permutation _ _ HR) as HsizeR.
        rewrite size_drop in HsizeR by lia.
        rewrite copy_into_in_range by lia. simpl.
        exists R. rewrite Htake2.
        rewrite (drop_ge arr2) by (unfold size in *; lia).
        rewrite app_nil_r, <- app_assoc. by split.
    - exists (drop (Z.to_nat i) arr1). split; [|split; [done|]].
      + rewrite <- Hdrop2, app_assoc, <- Htake2. by rewrite take_drop.
      + apply sorted_short. rewrite size_drop; lia. }
  exists (L ++ M ++ R).
  destruct (partition_glue arr1 L R p i j) as [Hperm Hsorted]; try done; try lia.
  split; [done|]. split; [by etrans|done].
Qed.

(* ------------------------------------------------------------------ *)
(** * The comparison operators *)

(** C2. [operator<] compares the cabin number, then the destination port,
    then the full name; it is irreflexive, transitive and asymmetric, its
    incomparability is transitive (a strict weak ordering), and [>], [<=],
    [>=] are [<] with the arguments exchanged, and its negations. *)
Theorem passenger_order_strict_weak (a b c : Passenger) :
  (lt a b = true <->
     cabinNumber a < cabinNumber b \/
     cabinNumber a = cabinNumber b /\
     (String.ltb (destinationPort a) (destinationPort b) = true \/
      destinationPort a = destinationPort b /\
      String.ltb (fullName a) (fullName b) = true)) /\
  lt a a = false /\
  (lt a b = true -> lt b c = true -> lt a c = true) /\
  (lt a b = true -> lt b a = false) /\
  (lt a b = false -> lt b a = false -> lt b c = false -> lt c b = false ->
   lt a c = false /\ lt c a = false) /\
  gt a b = lt b a /\
  le a b = negb (lt b a) /\
  ge a b = negb (lt a b).
Proof.
  split; [apply lt_spec|].
  split; [apply lt_irrefl|].
  split; [apply lt_trans|].
  split; [apply lt_asym|].
  split; [apply lt_incomparable_trans|].
  by repeat split.
Qed.

Lemma passenger_order_strict_weak_witness :
  lt (mkPassenger "Ann" 1 "1" "Oslo") (mkPassenger "Ann" 2 "2" "Kiel") = true /\
  lt (mkPassenger "Ann" 2 "2" "Kiel") (mkPassenger "Bob" 2 "3" "Kiel") = true /\
  lt (mkPassenger "Ann" 1 "1" "Oslo") (mkPassenger "Bob" 2 "3" "Kiel") = true /\
  lt (mkPassenger "Ann" 2 "2" "Kiel") (mkPassenger "Ann" 1 "1" "Oslo") = false.
Proof.
  pose proof (passenger_order_strict_weak
                (mkPassenger "Ann" 1 "1" "Oslo") (mkPassenger "Ann" 2 "2" "Kiel")
                (mkPassenger "Bob" 2 "3" "Kiel")) as (_ & _ & Htrans & Hasym & _).
  split; [reflexivity|]. split; [reflexivity|].
  split; [apply Htrans; reflexivity|apply Hasym; reflexivity].
Defined.

(** C10. [operator<] does not look at the cabin type: changing the cabin
    types of two records does not change how they compare, and two records
    with the same cabin number, destination port and full name are not
    ordered either way, so that both of their orders are sorted. *)
Theorem lt_ignores_cabinType (a b : Passenger) (ta tb : string) :
  lt (mkPassenger (fullName a) (cabinNumber a) ta (destinationPort a))
     (mkPassenger (fullName b) (cabinNumber b) tb (destinationPort b)) = lt a b /\
  (cabinNumber a = cabinNumber b ->
   destinationPort a = destinationPort b ->
   fullName a = fullName b ->
   lt a b = false /\ lt b a = false /\ sorted [a; b] /\ sorted [b; a]).
Proof.
  split; [done|]. intros Hc Hd Hn.
  assert (key a = key b) as Hk by (unfold key; congruence).
  assert (lt a b = false) as Hab by (by rewrite (lt_key a b b b), lt_irrefl).
  assert (lt b a = false) as Hba by (by rewrite (lt_key b b a b), lt_irrefl).
  split; [done|]. split; [done|].
  split; repeat constructor; unfold leP, le; by rewrite ?Hab, ?Hba.
Qed.

Lemma lt_ignores_cabinType_witness :
  lt (mkPassenger "Ann" 7 "Lux" "Kiel") (mkPassenger "Ann" 7 "3" "Kiel") = false /\
  lt (mkPassenger "Ann" 7 "3" "Kiel") (mkPassenger "Ann" 7 "Lux" "Kiel") = false /\
  sorted [mkPassenger "Ann" 7 "Lux" "Kiel"; mkPassenger "Ann" 7 "3" "Kiel"] /\
  sorted [mkPassenger "Ann" 7 "3" "Kiel"; mkPassenger "Ann" 7 "Lux" "Kiel"].
Proof.
  apply (lt_ignores_cabinType (mkPassenger "Ann" 7 "Lux" "Kiel")
                              (mkPassenger "Ann" 7 "3" "Kiel") "" ""); reflexivity.
Defined.

(* ------------------------------------------------------------------ *)
(** * The sorts *)

Lemma quickSortR_sorts (arr : vec) :
  arr <> [] -> size arr <= LONG_MAX ->
  exists arr', quickSortR arr = Ok arr' /\ arr ≡ₚ arr' /\ sorted arr'.
Proof.
  intros Hne Hsmall. apply quickSortR_rec_sorts; [done|done|].
  unfold size. lia.
Qed.

(** C3. On a non-empty vector [quickSortR] takes [arr[size / 2]] as the
    pivot; the partition loop ends with [j < i], [i >= 1] and
    [j <= size - 2]; the call then sorts a copy of [arr[0..j]] when
    [j > 0] and a copy of [arr[i..size)] when [i < size], which are
    shorter than [arr]; and the call returns, whatever bound at least
    [size] is put on the nesting of the calls. *)
Theorem quickSortR_terminates (arr : vec) :
  arr <> [] -> size arr <= LONG_MAX ->
  exists p arr1 i j,
    vget arr (size arr / 2) = Ok p /\
    partition (length arr) arr p 0 (size arr - 1) = Ok (arr1, i, j) /\
    size arr1 = size arr /\ j < i /\
    (forall depth,
       quickSortR_rec (S depth) arr =
         arr2 ← (if 0 <? j
                 then left ← slice arr1 0 (j + 1);
                      left' ← quickSortR_rec depth left; copy_into arr1 0 left'
                 else Ok arr1);
         if i <? size arr2
         then right ← slice arr2 i (size arr2);
              right' ← quickSortR_rec depth right; copy_into arr2 i right'
         else Ok arr2) /\
    (0 < j -> exists left, slice arr1 0 (j + 1) = Ok left /\
                           left <> [] /\ size left < size arr) /\
    (forall arr2, size arr2 = size arr -> i < size arr2 ->
       exists right, slice arr2 i (size arr2) = Ok right /\
                     right <> [] /\ size right < size arr) /\
    (forall depth, size arr <= Z.of_nat depth ->
       exists arr', quickSortR_rec depth arr = Ok arr') /\
    exists arr', quickSortR arr = Ok arr'.
Proof.
  intros Hne Hsmall.
  pose proof (size_nonempty _ Hne) as Hn.
  pose proof (half_in_range _ Hn) as Hhalf.
  rewrite Z.shiftr_div_pow2 in Hhalf by lia. change (2 ^ 1) with 2 in Hhalf.
  destruct (zlookup_in_range arr (size arr / 2)) as [p Hp]; [done|].
  destruct (partition_spec p (length arr) arr 0 (size arr - 1))
    as (arr1 & i & j & Hpart & Hperm1 & Hji & Hi & Hj & Hlow & Hhigh);
    [|unfold size; lia|].
  { by apply (part_pre_whole arr p (size arr / 2)). }
  pose proof (size_Permutation _ _ Hperm1) as Hsize1.
  exists p, arr1, i, j.
  split; [by apply vget_zlookup|]. split; [done|]. split; [done|]. split; [done|].
  split; [|split; [|split; [|split]]].
  - intros depth. cbn [quickSortR_rec].
    rewrite Z.shiftr_div_pow2 by lia. change (2 ^ 1) with 2.
    rewrite to_size_t_small, to_long_small by (unfold LONG_MAX in *; lia).
    rewrite (vget_zlookup _ _ _ Hp). simpl. rewrite Hpart. simpl.
    destruct (if 0 <? j then _ else _) as [arr2| | |] eqn:Hleft; simpl; try done.
    assert (size arr2 = size arr) as Hsize2.
    { destruct (0 <? j); [|by injection Hleft as <-].
      destruct (slice arr1 0 (j + 1)) as [left| | |]; simpl in Hleft; try done.
      destruct (quickSortR_rec depth left) as [left'| | |]; simpl in Hleft; try done.
      unfold copy_into in Hleft. destruct (_ && _) eqn:Hin; [|done].
      injection Hleft as <-. apply andb_prop in Hin as [_ Hin%Z.leb_le].
      pose proof (size_nonneg left').
      rewrite !size_app, size_drop by lia. lia. }
    by rewrite to_size_t_small by (unfold LONG_MAX in *; lia).
  - intros Hpos. eexists. split; [apply slice_in_range; lia|].
    change (Z.to_nat 0) with O. rewrite drop_0, size_take by lia.
    split; [|lia]. apply size_pos_nonempty. rewrite size_take; lia.
  - intros arr2 Hsize2 Hlt. eexists. split; [apply slice_in_range; lia|].
    rewrite take_ge by (rewrite length_drop; unfold size in *; lia).
    rewrite size_drop by lia.
    split; [|lia]. apply size_pos_nonempty. rewrite size_drop; lia.
  - intros depth Hdepth.
    destruct (quickSortR_rec_sorts depth arr Hne Hsmall Hdepth) as (r & Hr & _).
    by exists r.
  - destruct (quickSortR_sorts arr Hne Hsmall) as (r & Hr & _). by exists r.
Qed.

Lemma quickSortR_terminates_witness :
  exists arr',
    quickSortR [mkPassenger "Bob" 2 "1" "Kiel"; mkPassenger "Ann" 1 "1" "Kiel";
                mkPassenger "Cy" 2 "1" "Bonn"] = Ok arr'.
Proof.
  destruct (quickSortR_terminates
              [mkPassenger "Bob" 2 "1" "Kiel"; mkPassenger "Ann" 1 "1" "Kiel";
               mkPassenger "Cy" 2 "1" "Bonn"])
    as (p & arr1 & i & j & _ & _ & _ & _ & _ & _ & _ & _ & H);
    [discriminate|vm_compute; discriminate|exact H].
Defined.

Lemma sel_loop_done (fuel : nat) (arr : vec) (n i : Z) :
  n - 1 <= i -> sel_loop fuel arr n i = Ok arr.
Proof.
  intros H. destruct fuel; simpl; destruct (Z.ltb_spec i (n - 1)); lia || reflexivity.
Qed.

(** The scenario of the specification, run. *)
Example sorts_on_two_records :
  selectionSort [mkPassenger "B" 2 "1" "X"; mkPassenger "A" 1 "1" "X"]
    = Ok [mkPassenger "A" 1 "1" "X"; mkPassenger "B" 2 "1" "X"] /\
  insertionSort [mkPassenger "B" 2 "1" "X"; mkPassenger "A" 1 "1" "X"]
    = Ok [mkPassenger "A" 1 "1" "X"; mkPassenger "B" 2 "1" "X"] /\
  quickSortR [mkPassenger "B" 2 "1" "X"; mkPassenger "A" 1 "1" "X"]
    = Ok [mkPassenger "A" 1 "1" "X"; mkPassenger "B" 2 "1" "X"].
Proof. repeat split; vm_compute; reflexivity. Qed.

#[local] Instance leP_total : Total leP.
Proof. intros a b. apply le_total. Qed.

Section Sorts.

(** [std::sort] is the library's: all that is known of it is [alg.sort],
    that it leaves the range sorted under the comparison, with the same
    elements. *)
Variable std_sort : vec -> vec.
Hypothesis std_sort_sorts : forall arr, arr ≡ₚ std_sort arr /\ sorted (std_sort arr).

(** C1, as far as it holds. [selectionSort] and [insertionSort] return a
    sorted permutation of every vector whose size fits their [int] index,
    [quickSortR] of every non-empty vector, and [std::sort] of every
    vector. *)
Theorem sorts_return_sorted_permutation (S : vec) :
  (size S <= INT_MAX ->
   (exists r, selectionSort S = Ok r /\ S ≡ₚ r /\ sorted r) /\
   (exists r, insertionSort S = Ok r /\ S ≡ₚ r /\ sorted r)) /\
  (S <> [] -> size S <= LONG_MAX ->
   exists r, quickSortR S = Ok r /\ S ≡ₚ r /\ sorted r) /\
  (S ≡ₚ std_sort S /\ sorted (std_sort S)).
Proof.
  split; [|split].
  - intros Hsmall. split; [by apply selectionSort_sorts|by apply insertionSort_sorts].
  - apply quickSortR_sorts.
  - apply std_sort_sorts.
Qed.

(** C4 on the code. The empty vector and a vector of one record come back
    unchanged from [selectionSort], [insertionSort] and [std::sort], and
    the vector of one record from [quickSortR]; on the empty vector
    [quickSortR] reads [arr[0]], outside the vector. *)
Theorem sorts_on_empty_and_singleton (x : Passenger) :
  selectionSort [] = Ok [] /\ insertionSort [] = Ok [] /\ std_sort [] = [] /\
  selectionSort [x] = Ok [x] /\ insertionSort [x] = Ok [x] /\
  quickSortR [x] = Ok [x] /\ std_sort [x] = [x] /\
  vget [] (Z.shiftr (size []) 1) = Undef /\
  quickSortR [] = Undef.
Proof.
  split; [reflexivity|]. split; [reflexivity|].
  split; [apply Permutation.Permutation_nil, std_sort_sorts|].
  split; [reflexivity|]. split; [reflexivity|].
  split; [|split; [|split; reflexivity]].
  - destruct (quickSortR_sorts [x]) as (r & -> & Hperm & _);
      [done|vm_compute; discriminate|].
    by apply Permutation.Permutation_length_1_inv in Hperm as ->.
  - apply Permutation.Permutation_length_1_inv, std_sort_sorts.
Qed.

End Sorts.

Lemma sorts_return_sorted_permutation_witness :
  exists r,
    quickSortR [mkPassenger "B" 2 "1" "X"; mkPassenger "A" 1 "1" "X"] = Ok r /\
    [mkPassenger "B" 2 "1" "X"; mkPassenger "A" 1 "1" "X"] ≡ₚ r /\ sorted r.
Proof.
  apply (sorts_return_sorted_permutation (merge_sort leP)
           (fun arr => conj (symmetry (merge_sort_Permutation leP arr))
                            (Sorted_merge_sort leP arr))
           [mkPassenger "B" 2 "1" "X"; mkPassenger "A" 1 "1" "X"]).
  - discriminate.
  - vm_compute. discriminate.
Defined.

Lemma sorts_on_empty_and_singleton_witness :
  quickSortR [mkPassenger "A" 1 "1" "X"] = Ok [mkPassenger "A" 1 "1" "X"] /\
  quickSortR [] = Undef.
Proof.
  pose proof (sorts_on_empty_and_singleton (merge_sort leP)
           (fun arr => conj (symmetry (merge_sort_Permutation leP arr))
                            (Sorted_merge_sort leP arr))
           (mkPassenger "A" 1 "1" "X")) as (_ & _ & _ & _ & _ & H1 & _ & _ & H2).
  exact (conj H1 H2).
Defined.

(** C1 as stated fails twice. A vector of 2^31 + 1 records, the first one
    greater than the others: [int n = arr.size()] is negative, the loop of
    [selectionSort] is not entered and the vector comes back as it was.
    And the empty vector: [quickSortR] reads [arr[0]]. *)
Lemma sorts_fail_beyond_int_and_on_empty :
  (selectionSort (mkPassenger "" 1 "" "" :: mkPassenger "" 0 "" ""
                    :: replicate (Z.to_nat 2147483647) (mkPassenger "" 0 "" ""))
   = Ok (mkPassenger "" 1 "" "" :: mkPassenger "" 0 "" ""
           :: replicate (Z.to_nat 2147483647) (mkPassenger "" 0 "" "")) /\
   ~ sorted (mkPassenger "" 1 "" "" :: mkPassenger "" 0 "" ""
               :: replicate (Z.to_nat 2147483647) (mkPassenger "" 0 "" ""))) /\
  quickSortR [] = Undef.
Proof.
  split; [split|reflexivity].
  - unfold selectionSort.
    assert (size (mkPassenger "" 1 "" "" :: mkPassenger "" 0 "" ""
                    :: replicate (Z.to_nat 2147483647) (mkPassenger "" 0 "" ""))
            = 2147483649) as ->.
    { unfold size. rewrite !length_cons, length_replicate. lia. }
    cbv zeta. change (to_int 2147483649) with (-2147483647).
    change (-2147483647 =? INT_MIN) with false. cbv iota.
    apply sel_loop_done. lia.
  - intros Hs. apply Sorted_inv in Hs as [_ Hhd]. apply HdRel_inv in Hhd.
    unfold leP in Hhd. vm_compute in Hhd. discriminate.
Qed.

(* ------------------------------------------------------------------ *)
(** * Text *)

Lemma string_app_cons (c : Ascii.ascii) (s1 s2 : string) :
  String c s1 +:+ s2 = String c (s1 +:+ s2).
Proof. reflexivity. Qed.

Lemma string_app_nil_l (s : string) : EmptyString +:+ s = s.
Proof. reflexivity. Qed.

Lemma string_app_nil_r (s : string) : s +:+ EmptyString = s.
Proof.
  induction s as [|c s IH]; [done|]. rewrite string_app_cons. by rewrite IH.
Qed.

Lemma string_app_assoc (s1 s2 s3 : string) :
  (s1 +:+ s2) +:+ s3 = s1 +:+ s2 +:+ s3.
Proof.
  induction s1 as [|c s1 IH]; [done|]. rewrite !string_app_cons. by rewrite IH.
Qed.

Lemma string_length_app (s1 s2 : string) :
  String.length (s1 +:+ s2) = (String.length s1 + String.length s2)%nat.
Proof.
  induction s1 as [|c s1 IH]; [done|]. rewrite string_app_cons. cbn. by rewrite IH.
Qed.

Lemma occurs_app (c : Ascii.ascii) (s1 s2 : string) :
  occurs c (s1 +:+ s2) = occurs c s1 || occurs c s2.
Proof.
  induction s1 as [|d s1 IH]; [done|]. rewrite string_app_cons. cbn.
  by rewrite IH, orb_assoc.
Qed.

(** ** [std::getline] *)

Lemma split_at_delim (c : Ascii.ascii) (s rest : string) :
  occurs c s = false -> split_at c (s +:+ String c rest) = (s, rest).
Proof.
  induction s as [|d s IH]; rewrite ?string_app_cons, ?string_app_nil_l; cbn.
  - intros _. by rewrite Ascii.eqb_refl.
  - intros [Hd Hs]%orb_false_elim. rewrite Hd. by rewrite (IH Hs).
Qed.

Lemma split_at_end (c : Ascii.ascii) (s : string) :
  occurs c s = false -> split_at c s = (s, EmptyString).
Proof.
  induction s as [|d s IH]; cbn; [done|].
  intros [Hd Hs]%orb_false_elim. rewrite Hd. by rewrite (IH Hs).
Qed.

Lemma split_at_shorter (c : Ascii.ascii) (s : string) :
  (String.length (split_at c s).2 <= String.length s)%nat.
Proof.
  induction s as [|d s IH]; cbn; [done|].
  destruct (Ascii.eqb d c); cbn; [lia|].
  destruct (split_at c s) as [l r]. cbn in *. lia.
Qed.

Lemma getline_delim (c : Ascii.ascii) (s rest : string) :
  occurs c s = false -> getline c (s +:+ String c rest) = Some (s, rest).
Proof.
  intros Hs. unfold getline. rewrite (split_at_delim _ _ _ Hs).
  destruct s; by rewrite ?string_app_cons, ?string_app_nil_l.
Qed.

Lemma getfield_delim (s rest : string) :
  occurs comma s = false -> getfield (s +:+ String comma rest) = (s, rest).
Proof. intros Hs. unfold getfield. by rewrite getline_delim. Qed.

Lemma getfield_end (s : string) :
  occurs comma s = false -> getfield s = (s, EmptyString).
Proof.
  intros Hs. unfold getfield, getline. destruct s as [|d s]; [done|].
  by rewrite split_at_end.
Qed.

(** ** Decimal numbers *)

Lemma mod10_range (n : Z) : 0 <= n mod 10 <= 9.
Proof. pose proof (Z.mod_pos_bound n 10). lia. Qed.

Lemma digit_char_facts (d : Z) :
  0 <= d <= 9 ->
  digit_of (digit_char d) = Some d /\
  is_space (digit_char d) = false /\
  Ascii.eqb (digit_char d) "-" = false /\
  Ascii.eqb (digit_char d) "+" = false.
Proof.
  intros Hd.
  assert (d = 0 \/ d = 1 \/ d = 2 \/ d = 3 \/ d = 4 \/
          d = 5 \/ d = 6 \/ d = 7 \/ d = 8 \/ d = 9) as Hcases by lia.
  repeat (destruct Hcases as [->|Hcases]; [by vm_compute|]).
  subst. by vm_compute.
Qed.

Lemma digits_only_occurs (c : Ascii.ascii) (s : string) :
  digit_of c = None -> digits_only s = true -> occurs c s = false.
Proof.
  intros Hc. induction s as [|d s IH]; cbn; [done|].
  intros [Hd Hs]%andb_prop. rewrite (IH Hs), orb_false_r.
  destruct (Ascii.eqb_spec d c) as [->|]; [|done]. by rewrite Hc in Hd.
Qed.

Lemma dec_digits_digits_only (fuel : nat) :
  forall n acc, 0 <= n -> digits_only acc = true ->
                digits_only (dec_digits fuel n acc) = true.
Proof.
  assert (forall n acc, 0 <= n -> digits_only acc = true ->
            digits_only (String (digit_char (n mod 10)) acc) = true) as Hone.
  { intros n acc Hn Hacc. cbn.
    destruct (digit_char_facts (n mod 10)) as [-> _]; [|done].
    apply mod10_range. }
  induction fuel as [|fuel IH]; intros n acc Hn Hacc; cbn [dec_digits];
    [by apply Hone|].
  destruct (n <? 10); [by apply Hone|].
  apply IH; [apply Z.div_pos; lia|by apply Hone].
Qed.

Lemma dec_digits_head (fuel : nat) :
  forall n acc, 0 <= n ->
    exists d s, 0 <= d <= 9 /\ dec_digits fuel n acc = String (digit_char d) s.
Proof.
  induction fuel as [|fuel IH]; intros n acc Hn; cbn [dec_digits].
  - exists (n mod 10), acc. split; [|done]. apply mod10_range.
  - destruct (n <? 10).
    + exists (n mod 10), acc. split; [|done]. apply mod10_range.
    + apply IH. apply Z.div_pos; lia.
Qed.

(** Reading back what was printed. *)
Lemma read_dec_digits (fuel : nat) :
  forall n acc, 0 <= n < 10 ^ (Z.of_nat fuel + 1) ->
    read_digits (dec_digits fuel n acc) 0 = read_digits acc n.
Proof.
  assert (forall n acc v, 0 <= n ->
            read_digits (String (digit_char (n mod 10)) acc) v
            = read_digits acc (10 * v + n mod 10)) as Hone.
  { intros n acc v Hn. cbn.
    destruct (digit_char_facts (n mod 10)) as [-> _]; [|done].
    apply mod10_range. }
  induction fuel as [|fuel IH]; intros n acc Hn; cbn [dec_digits].
  - rewrite Hone by lia. f_equal. change (10 ^ (Z.of_nat 0 + 1)) with 10 in Hn.
    rewrite Z.mod_small; lia.
  - destruct (Z.ltb_spec n 10) as [Hlt|Hge].
    + rewrite Hone by lia. f_equal. rewrite Z.mod_small; lia.
    + rewrite IH.
      * rewrite Hone by lia. f_equal. pose proof (Z.div_mod n 10). lia.
      * split; [apply Z.div_pos; lia|].
        apply Z.div_lt_upper_bound; [lia|].
        replace (Z.of_nat (S fuel) + 1) with (Z.succ (Z.of_nat fuel + 1)) in Hn by lia.
        rewrite Z.pow_succ_r in Hn; lia.
Qed.

Lemma log2_decimal_bound (n : Z) :
  0 <= n -> 0 <= n < 10 ^ (Z.of_nat (Z.to_nat (Z.log2 n)) + 1).
Proof.
  intros Hn. pose proof (Z.log2_nonneg n) as Hl. split; [done|].
  rewrite Z2Nat.id by done.
  destruct (decide (n = 0)) as [->|Hne].
  { change (Z.log2 0) with 0. by vm_compute. }
  pose proof (Z.log2_spec n ltac:(lia)) as [_ Hup].
  eapply Z.lt_le_trans; [exact Hup|].
  unfold Z.succ. apply Z.pow_le_mono_l. lia.
Qed.

Lemma stoi_to_string (n : Z) : in_int n -> stoi (to_string n) = Ok n.
Proof.
  intros [Hlo Hhi]. unfold to_string.
  destruct (Z.ltb_spec n 0) as [Hneg|Hpos].
  - unfold stoi. cbn [skip_space].
    change (is_space "-") with false. cbv iota.
    change (Ascii.eqb "-" "-") with true. cbv iota.
    destruct (dec_digits_head (Z.to_nat (Z.log2 (- n))) (- n) EmptyString)
      as (d & s & Hd & Hs); [lia|].
    unfold starts_with_digit. rewrite Hs.
    destruct (digit_char_facts d Hd) as [-> _]. rewrite <- Hs.
    rewrite read_dec_digits by (apply log2_decimal_bound; lia).
    cbn [read_digits]. rewrite Z.opp_involutive.
    destruct (Z.leb_spec INT_MIN n); [|lia].
    by destruct (Z.leb_spec n INT_MAX); [|lia].
  - destruct (dec_digits_head (Z.to_nat (Z.log2 n)) n EmptyString)
      as (d & s & Hd & Hs); [lia|].
    unfold stoi. rewrite Hs. cbn [skip_space].
    destruct (digit_char_facts d Hd) as (Hdig & -> & -> & ->).
    unfold starts_with_digit. rewrite Hdig. rewrite <- Hs.
    rewrite read_dec_digits by (apply log2_decimal_bound; lia).
    cbn [read_digits].
    destruct (Z.leb_spec INT_MIN n); [|lia].
    by destruct (Z.leb_spec n INT_MAX); [|lia].
Qed.

Lemma to_string_field_ok (n : Z) : field_ok (to_string n).
Proof.
  assert (forall m, 0 <= m ->
            digits_only (dec_digits (Z.to_nat (Z.log2 m)) m EmptyString) = true) as Hdig.
  { intros m Hm. by apply dec_digits_digits_only. }
  unfold field_ok, to_string.
  destruct (Z.ltb_spec n 0) as [Hneg|Hpos]; cbn [occurs].
  - change (Ascii.eqb "-" comma) with false.
    change (Ascii.eqb "-" newline) with false. cbn [orb].
    split; apply digits_only_occurs; try done; apply Hdig; lia.
  - split; apply digits_only_occurs; try done; apply Hdig; lia.
Qed.

(** [std::stoi] returns or throws. *)
Lemma stoi_outcome (s : string) :
  (exists n, stoi s = Ok n /\ in_int n) \/ (exists e, stoi s = Throw e).
Proof.
  unfold stoi.
  destruct (match skip_space s with
            | String c s' => _
            | EmptyString => _
            end) as [neg s1].
  destruct (starts_with_digit s1); [|right; by eexists].
  set (v := if neg then _ else _).
  destruct (Z.leb_spec INT_MIN v); [|right; by eexists].
  destruct (Z.leb_spec v INT_MAX); [|right; by eexists].
  left. exists v. by split.
Qed.

(* ------------------------------------------------------------------ *)
(** * The loader and the writer *)

Lemma split_at_shorter_strict (c : Ascii.ascii) (s : string) :
  s <> EmptyString -> (String.length (split_at c s).2 < String.length s)%nat.
Proof.
  destruct s as [|d s]; [done|]. intros _. cbn.
  destruct (Ascii.eqb d c); cbn; [lia|].
  pose proof (split_at_shorter c s).
  destruct (split_at c s) as [l r]. cbn in *. lia.
Qed.

Lemma getline_shorter (c : Ascii.ascii) (s line rest : string) :
  getline c s = Some (line, rest) -> (String.length rest < String.length s)%nat.
Proof.
  unfold getline. destruct s as [|d s]; [done|]. intros H.
  pose proof (split_at_shorter_strict c (String d s) ltac:(done)) as Hlt.
  assert (split_at c (String d s) = (line, rest)) as Heq by congruence.
  by rewrite Heq in Hlt.
Qed.

Lemma parse_row_second_field (line : string) :
  parse_row line =
    n ← stoi (second_field line);
    Ok (mkPassenger (getfield line).1 n
          (getfield (getfield (getfield line).2).2).1
          (getfield (getfield (getfield (getfield line).2).2).2).1).
Proof.
  unfold parse_row, second_field.
  destruct (getfield line) as [f1 s1]. cbn [fst snd].
  destruct (getfield s1) as [f2 s2]. cbn [fst snd].
  destruct (getfield s2) as [f3 s3]. cbn [fst snd].
  by destruct (getfield s3) as [f4 s4].
Qed.

Lemma parse_row_outcome (line : string) :
  (exists p, parse_row line = Ok p) \/ (exists e, parse_row line = Throw e).
Proof.
  rewrite parse_row_second_field.
  destruct (stoi_outcome (second_field line)) as [(n & -> & _)|(e & ->)];
    [left|right]; by eexists.
Qed.

(** The loop parses the lines in turn and stops at the first failure. *)
Lemma load_rows_parse_rows :
  forall fuel input acc,
    (String.length input <= fuel)%nat ->
    load_rows fuel input acc = ps ← parse_rows (lines_of fuel input); Ok (acc ++ ps).
Proof.
  induction fuel as [|fuel IH]; intros input acc Hfuel; cbn [load_rows lines_of];
    destruct (getline newline input) as [[line rest]|] eqn:Hget;
    try (cbn; by rewrite app_nil_r).
  { apply getline_shorter in Hget. lia. }
  cbn [parse_rows].
  destruct (parse_row line) as [p| | |]; try done. simpl.
  rewrite IH by (apply getline_shorter in Hget; lia).
  destruct (parse_rows (lines_of fuel rest)) as [ps| | |]; try done.
  simpl. by rewrite <- app_assoc.
Qed.

(** [loadPassengers] on a file that opens: the rows after the header. *)
Lemma loadPassengers_data_rows (fs : filesystem) (filename content : string) :
  fs !! filename = Some content ->
  loadPassengers fs filename = parse_rows (data_rows content).
Proof.
  intros Hfile. unfold loadPassengers, data_rows. rewrite Hfile.
  rewrite load_rows_parse_rows.
  - by destruct (parse_rows _).
  - destruct (getline newline content) as [[line rest]|] eqn:Hget; [|cbn; lia].
    apply getline_shorter in Hget. lia.
Qed.

(** One line that does not parse makes the whole list fail. *)
Lemma parse_rows_throws (row : string) (rows : list string) :
  (forall n, stoi (second_field row) <> Ok n) ->
  row ∈ rows ->
  exists e, parse_rows rows = Throw e.
Proof.
  intros Hrow. induction rows as [|line rows IH]; intros Hin;
    [by apply elem_of_nil in Hin|].
  cbn [parse_rows].
  destruct (parse_row_outcome line) as [[p Hp]|[e He]]; cycle 1.
  { rewrite He. by exists e. }
  rewrite Hp. simpl.
  apply elem_of_cons in Hin as [->|Hin].
  - rewrite parse_row_second_field in Hp.
    destruct (stoi (second_field line)) as [n| | |] eqn:Hn; try done.
    by destruct (Hrow n).
  - destruct (IH Hin) as [e ->]. by exists e.
Qed.

Lemma comma_app (s : string) : "," +:+ s = String comma s.
Proof. reflexivity. Qed.

Lemma nl_app (s : string) : nl +:+ s = String newline s.
Proof. reflexivity. Qed.

Lemma csv_row_line (p : Passenger) (rest : string) :
  csv_row p +:+ rest = csv_line p +:+ String newline rest.
Proof. unfold csv_row, csv_line. by rewrite !string_app_assoc. Qed.

Lemma occurs_csv_line (p : Passenger) :
  row_ok p -> occurs newline (csv_line p) = false.
Proof.
  intros (_ & [_ Hn] & [_ Ht] & [_ Hd]).
  destruct (to_string_field_ok (cabinNumber p)) as [_ Hc].
  unfold csv_line. rewrite !occurs_app, Hn, Ht, Hd, Hc. done.
Qed.

Lemma parse_row_csv_line (p : Passenger) : row_ok p -> parse_row (csv_line p) = Ok p.
Proof.
  intros (Hint & [Hn _] & [Ht _] & [Hd _]).
  destruct (to_string_field_ok (cabinNumber p)) as [Hc _].
  unfold parse_row, csv_line.
  rewrite !comma_app.
  rewrite (getfield_delim _ _ Hn), (getfield_delim _ _ Hc), (getfield_delim _ _ Ht),
    (getfield_end _ Hd).
  rewrite (stoi_to_string _ Hint). by destruct p.
Qed.

Lemma load_rows_csv_rows (passengers : vec) :
  Forall row_ok passengers ->
  forall fuel acc,
    (length passengers <= fuel)%nat ->
    load_rows fuel (csv_rows passengers) acc = Ok (acc ++ passengers).
Proof.
  induction 1 as [|p passengers Hp _ IH]; intros fuel acc Hfuel.
  - destruct fuel; cbn; by rewrite app_nil_r.
  - destruct fuel as [|fuel]; [cbn in Hfuel; lia|].
    cbn [csv_rows load_rows]. rewrite csv_row_line.
    rewrite getline_delim by (by apply occurs_csv_line).
    rewrite (parse_row_csv_line _ Hp). simpl.
    rewrite IH by (cbn in Hfuel; lia). by rewrite <- app_assoc.
Qed.

Lemma length_csv_rows (passengers : vec) :
  (length passengers <= String.length (csv_rows passengers))%nat.
Proof.
  induction passengers as [|p passengers IH]; [done|].
  cbn [csv_rows length]. rewrite csv_row_line, string_length_app. cbn. lia.
Qed.

(** Reading a file that holds the text written for [passengers]. *)
Lemma loadPassengers_csv_text (fs : filesystem) (filename : string) (passengers : vec) :
  fs !! filename = Some (csv_text passengers) ->
  Forall row_ok passengers ->
  loadPassengers fs filename = Ok passengers.
Proof.
  intros Hfile Hok. unfold loadPassengers. rewrite Hfile.
  unfold csv_text at 2. rewrite nl_app.
  rewrite getline_delim by (by vm_compute).
  apply (load_rows_csv_rows _ Hok _ []).
  unfold csv_text. rewrite !string_length_app.
  pose proof (length_csv_rows passengers). lia.
Qed.

Section Files.

Variable can_create : string -> bool.

(** C8. When the second field of some line after the header is not
    accepted by [std::stoi], [loadPassengers] ends with an exception: it
    does not return the other rows. *)
Theorem malformed_number_is_fatal
    (fs : filesystem) (filename content row : string) :
  fs !! filename = Some content ->
  row ∈ data_rows content ->
  (forall n, stoi (second_field row) <> Ok n) ->
  exists e, loadPassengers fs filename = Throw e.
Proof.
  intros Hfile Hrow Hbad. rewrite (loadPassengers_data_rows _ _ _ Hfile).
  by apply (parse_rows_throws row).
Qed.

(** C9, as far as it holds. What [savePassengers] wrote is read back by
    [loadPassengers] record for record when no text field holds a comma or
    a line feed. *)
Theorem save_load_round_trip
    (fs : filesystem) (filename : string) (passengers : vec) :
  can_create filename = true ->
  Forall row_ok passengers ->
  loadPassengers (savePassengers can_create filename passengers fs) filename
  = Ok passengers.
Proof.
  intros Hcreate Hok. apply loadPassengers_csv_text; [|done].
  unfold savePassengers, write_file. rewrite Hcreate.
  apply lookup_insert_eq.
Qed.

End Files.

Lemma malformed_number_is_fatal_witness :
  exists e,
    loadPassengers {[ "passengers.csv" := "name,cabin,class,port
Ann,x1,1,Kiel
Bob,2,1,Kiel
" ]} "passengers.csv" = Throw e.
Proof.
  apply (malformed_number_is_fatal _ "passengers.csv" "name,cabin,class,port
Ann,x1,1,Kiel
Bob,2,1,Kiel
" "Ann,x1,1,Kiel").
  - reflexivity.
  - vm_compute. left.
  - intros n. vm_compute. discriminate.
Defined.

Lemma save_load_round_trip_witness :
  loadPassengers
    (savePassengers (fun _ => true) "sorted/ss_100.csv"
       [mkPassenger "Ann Lee" (-7) "Lux" "Kiel"; mkPassenger "" 0 "" ""] ∅)
    "sorted/ss_100.csv"
  = Ok [mkPassenger "Ann Lee" (-7) "Lux" "Kiel"; mkPassenger "" 0 "" ""].
Proof.
  apply (save_load_round_trip (fun _ => true)); [reflexivity|].
  repeat constructor; vm_compute; congruence.
Defined.

(** C9 as stated fails on a field with a line feed: the record is written
    on two lines, and the first of them has no number. *)
Lemma round_trip_fails_on_line_feed :
  occurs comma (String "A" (String newline "B")) = false /\
  loadPassengers
    (savePassengers (fun _ => true) "sorted/ss_100.csv"
       [mkPassenger (String "A" (String newline "B")) 1 "1" "Kiel"] ∅)
    "sorted/ss_100.csv"
  = Throw invalid_argument.
Proof. split; vm_compute; reflexivity. Qed.

(* ------------------------------------------------------------------ *)
(** * The benchmark driver *)

Section Driver.

Variable std_sort : vec -> vec.
Variable clock : nat -> Z.
Variable can_create : string -> bool.

Lemma bind_Ok {A B : Type} (a : A) (k : A -> outcome B) : Ok a ≫= k = k a.
Proof. reflexivity. Qed.

(** The first [size] records, when the vector has that many. *)
Lemma slice_prefix (allPassengers : vec) (size' : Z) :
  0 <= size' <= size allPassengers ->
  slice allPassengers 0 size' = Ok (take (Z.to_nat size') allPassengers).
Proof.
  intros H. rewrite slice_in_range by lia.
  change (Z.to_nat 0) with O. rewrite drop_0. do 3 f_equal. lia.
Qed.

(** The three sorts return on a prefix of a benchmark size. *)
Lemma sorts_return (passengers : vec) :
  1 <= size passengers <= INT_MAX ->
  selectionSort passengers = Ok (sorted_of (selectionSort passengers)) /\
  insertionSort passengers = Ok (sorted_of (insertionSort passengers)) /\
  quickSortR passengers = Ok (sorted_of (quickSortR passengers)).
Proof.
  intros [Hlo Hhi].
  destruct (selectionSort_sorts passengers Hhi) as (r1 & -> & _).
  destruct (insertionSort_sorts passengers Hhi) as (r2 & -> & _).
  destruct (quickSortR_sorts passengers) as (r3 & -> & _);
    [by apply size_pos_nonempty|unfold INT_MAX, LONG_MAX in *; lia|done].
Qed.

(** The loop over sizes that the data set covers. *)
Lemma bench_covers (allPassengers : vec) :
  forall todo t log fs,
    Forall (fun s => 1 <= s <= size allPassengers /\ s <= INT_MAX) todo ->
    bench std_sort clock can_create todo allPassengers t log fs
    = Ok (log +:+ log_rows clock todo t,
          foldl (save_sorted can_create allPassengers) fs todo).
Proof.
  induction todo as [|size' todo IH]; intros t log fs Hsizes.
  - cbn. f_equal. f_equal. induction log as [|c log IHlog]; [done|].
    rewrite string_app_cons. by rewrite <- IHlog.
  - apply Forall_cons in Hsizes as [[Hsize Hint] Hsizes].
    cbn [bench]. rewrite slice_prefix by lia. simpl.
    destruct (sorts_return (take (Z.to_nat size') allPassengers))
      as (Hsel & Hins & Hqck); [rewrite size_take; lia|].
    rewrite Hsel. simpl. rewrite Hins. simpl. rewrite Hqck. simpl.
    rewrite IH by done. cbn [log_rows foldl]. f_equal. f_equal.
    unfold log_row. by rewrite !string_app_assoc.
Qed.

(** The loop over sizes one of which the data set does not cover. *)
Lemma bench_past_end (allPassengers : vec) :
  forall todo t log fs,
    Forall (fun s => 1 <= s <= INT_MAX) todo ->
    Exists (fun s => size allPassengers < s) todo ->
    bench std_sort clock can_create todo allPassengers t log fs = Undef.
Proof.
  induction todo as [|size' todo IH]; intros t log fs Hsizes Hbig.
  - by apply Exists_nil in Hbig.
  - apply Forall_cons in Hsizes as [Hsize Hsizes]. cbn [bench].
    destruct (decide (size allPassengers < size')) as [Hlt|Hge].
    { by rewrite slice_past_end. }
    apply Exists_cons in Hbig as [?|Hbig]; [done|].
    rewrite slice_prefix by lia. simpl.
    destruct (sorts_return (take (Z.to_nat size') allPassengers))
      as (Hsel & Hins & Hqck); [rewrite size_take; lia|].
    rewrite Hsel. simpl. rewrite Hins. simpl. rewrite Hqck. simpl.
    by apply IH.
Qed.

Lemma sizes_range :
  Forall (fun s => 1 <= s <= 100000 /\ s <= INT_MAX) sizes.
Proof. unfold sizes, INT_MAX. repeat constructor; lia. Qed.

Lemma main_covers (fs : filesystem) (allPassengers : vec) :
  loadPassengers fs "passengers.csv" = Ok allPassengers ->
  100000 <= size allPassengers ->
  main std_sort clock can_create fs
  = Ok (0, write_file can_create "timings.csv"
             (log_header +:+ log_rows clock sizes 0)
             (foldl (save_sorted can_create allPassengers) fs sizes)).
Proof.
  intros Hload Hsize. unfold main. rewrite Hload, bind_Ok.
  destruct allPassengers as [|p allPassengers]; [unfold size in Hsize; simpl in Hsize; lia|].
  rewrite bench_covers; [done|].
  eapply Forall_impl; [apply sizes_range|]. cbn. lia.
Qed.

(** C5, as far as it holds. When the loaded data set is not empty and
    shorter than the largest size, the prefix for every size that it does
    not cover reaches past its end. Nothing checks this: the behaviour is
    undefined, and from there nothing is promised about the run. It need
    not end in an error and need not shorten the prefix; every result,
    the return of exit status 0 among them, is possible. *)
Theorem prefix_past_end_is_undefined (fs : filesystem) (allPassengers : vec) :
  loadPassengers fs "passengers.csv" = Ok allPassengers ->
  allPassengers <> [] ->
  size allPassengers < 100000 ->
  (exists size', size' ∈ sizes /\ size allPassengers < size') /\
  (forall size', size allPassengers < size' -> slice allPassengers 0 size' = Undef) /\
  main std_sort clock can_create fs = Undef /\
  (forall r, may_end_as (main std_sort clock can_create fs) r).
Proof.
  intros Hload Hne Hsize.
  assert (main std_sort clock can_create fs = Undef) as Hmain.
  { unfold main. rewrite Hload, bind_Ok.
    destruct allPassengers as [|p allPassengers]; [done|].
    rewrite bench_past_end; [done|..].
    - eapply Forall_impl; [apply sizes_range|]. cbn. unfold INT_MAX. lia.
    - unfold sizes. rewrite !Exists_cons. do 10 right. by left. }
  split; [exists 100000; split; [unfold sizes; set_solver|done]|].
  split; [intros size' Hbig; by apply slice_past_end|].
  split; [done|]. intros r. by right.
Qed.

(** C6 on the code. With a data set of at least 100000 records [main]
    returns and the timing log holds the header and then one line per
    size, but no line feed ends the header: the first line of the file is
    the header run into the line for size 100. *)
Theorem timing_log_header_runs_into_first_row
    (fs : filesystem) (allPassengers : vec) :
  loadPassengers fs "passengers.csv" = Ok allPassengers ->
  100000 <= size allPassengers ->
  can_create "timings.csv" = true ->
  exists fs' log first rest,
    main std_sort clock can_create fs = Ok (0, fs') /\
    fs' !! "timings.csv" = Some log /\
    log = log_header +:+ log_rows clock sizes 0 /\
    getline newline log = Some (first, rest) /\
    first = log_header +:+ "100," +:+
            to_string (elapsed_ms (clock 0%nat) (clock 1%nat)) +:+ "," +:+
            to_string (elapsed_ms (clock 2%nat) (clock 3%nat)) +:+ "," +:+
            to_string (elapsed_ms (clock 4%nat) (clock 5%nat)) +:+ "," +:+
            to_string (elapsed_ms (clock 6%nat) (clock 7%nat)) /\
    first <> log_header /\
    rest = log_rows clock (tail sizes) 8.
Proof.
  intros Hload Hsize Hcreate.
  eexists _, _, _, _. split; [by apply main_covers|].
  split; [unfold write_file; rewrite Hcreate; apply lookup_insert_eq|].
  split; [done|].
  set (t1 := to_string (elapsed_ms (clock 0%nat) (clock 1%nat))).
  set (t2 := to_string (elapsed_ms (clock 2%nat) (clock 3%nat))).
  set (t3 := to_string (elapsed_ms (clock 4%nat) (clock 5%nat))).
  set (t4 := to_string (elapsed_ms (clock 6%nat) (clock 7%nat))).
  assert (log_header +:+ log_rows clock sizes 0
          = (log_header +:+ "100," +:+ t1 +:+ "," +:+ t2 +:+ "," +:+ t3 +:+ "," +:+ t4)
            +:+ String newline (log_rows clock (tail sizes) 8)) as ->.
  { unfold sizes. cbn [log_rows tail]. unfold log_row.
    change (to_string 100) with "100". cbn [Nat.add].
    fold t1 t2 t3 t4. by rewrite !string_app_assoc. }
  split; [|split; [done|split; [|done]]].
  - apply getline_delim.
    rewrite !occurs_app.
    destruct (to_string_field_ok (elapsed_ms (clock 0%nat) (clock 1%nat))) as [_ ->].
    destruct (to_string_field_ok (elapsed_ms (clock 2%nat) (clock 3%nat))) as [_ ->].
    destruct (to_string_field_ok (elapsed_ms (clock 4%nat) (clock 5%nat))) as [_ ->].
    destruct (to_string_field_ok (elapsed_ms (clock 6%nat) (clock 7%nat))) as [_ ->].
    by vm_compute.
  - intros Heq%(f_equal String.length).
    rewrite !string_length_app in Heq. cbn in Heq. lia.
Qed.

(** C7. When the input file cannot be opened [loadPassengers] returns the
    empty vector and [main] returns 1 with no file written. When the data
    set loads with at least 100000 records, [main] returns 0 after it
    wrote, for each size in turn, the three sorted files, and the timing
    log of all sizes. *)
Theorem main_exit_status (fs : filesystem) :
  (fs !! "passengers.csv" = None ->
   loadPassengers fs "passengers.csv" = Ok [] /\
   main std_sort clock can_create fs = Ok (1, fs)) /\
  (forall allPassengers,
     loadPassengers fs "passengers.csv" = Ok allPassengers ->
     allPassengers <> [] ->
     100000 <= size allPassengers ->
     main std_sort clock can_create fs
     = Ok (0, write_file can_create "timings.csv"
                (log_header +:+ log_rows clock sizes 0)
                (foldl (save_sorted can_create allPassengers) fs sizes))).
Proof.
  split.
  - intros Hfile. unfold main, loadPassengers. by rewrite Hfile.
  - intros allPassengers Hload _ Hsize. by apply main_covers.
Qed.

End Driver.

Lemma replicate_loads (n : nat) (p : Passenger) :
  row_ok p ->
  loadPassengers {[ "passengers.csv" := csv_text (replicate n p) ]} "passengers.csv"
  = Ok (replicate n p).
Proof.
  intros Hp. apply loadPassengers_csv_text; [apply lookup_singleton_eq|].
  by apply Forall_replicate.
Qed.

Lemma size_replicate (n : Z) (p : Passenger) :
  0 <= n -> size (replicate (Z.to_nat n) p) = n.
Proof. intros Hn. unfold size. rewrite length_replicate. lia. Qed.

Lemma row_ok_example : row_ok (mkPassenger "Ann" 1 "1" "Kiel").
Proof. repeat split; vm_compute; congruence. Qed.

Lemma prefix_past_end_is_undefined_witness :
  main (merge_sort leP) (fun t => Z.of_nat t) (fun _ => true)
    {[ "passengers.csv" :=
         csv_text (replicate (Z.to_nat 99999) (mkPassenger "Ann" 1 "1" "Kiel")) ]}
  = Undef.
Proof.
  destruct (prefix_past_end_is_undefined (merge_sort leP) (fun t => Z.of_nat t)
              (fun _ => true)
              {[ "passengers.csv" :=
                   csv_text (replicate (Z.to_nat 99999) (mkPassenger "Ann" 1 "1" "Kiel")) ]}
              (replicate (Z.to_nat 99999) (mkPassenger "Ann" 1 "1" "Kiel")))
    as (_ & _ & Hmain & _).
  - apply replicate_loads, row_ok_example.
  - apply size_pos_nonempty. rewrite size_replicate; lia.
  - rewrite size_replicate; lia.
  - exact Hmain.
Defined.

(** C5 as stated fails. With 99999 records in the file the prefix of
    size 100000 is read past the end of the vector, with no check. A
    boundary error is not what the run must end in: the behaviour is
    undefined, the return of exit status 0 is among the possible results,
    so it is false that every run on this file ends in an exception. *)
Lemma short_dataset_error_not_guaranteed :
  loadPassengers
    {[ "passengers.csv" :=
         csv_text (replicate (Z.to_nat 99999) (mkPassenger "Ann" 1 "1" "Kiel")) ]}
    "passengers.csv"
  = Ok (replicate (Z.to_nat 99999) (mkPassenger "Ann" 1 "1" "Kiel")) /\
  slice (replicate (Z.to_nat 99999) (mkPassenger "Ann" 1 "1" "Kiel")) 0 100000 = Undef /\
  main (merge_sort leP) (fun t => Z.of_nat t) (fun _ => true)
    {[ "passengers.csv" :=
         csv_text (replicate (Z.to_nat 99999) (mkPassenger "Ann" 1 "1" "Kiel")) ]}
  = Undef /\
  (forall fs',
     may_end_as
       (main (merge_sort leP) (fun t => Z.of_nat t) (fun _ => true)
          {[ "passengers.csv" :=
               csv_text (replicate (Z.to_nat 99999) (mkPassenger "Ann" 1 "1" "Kiel")) ]})
       (Ok (0, fs'))) /\
  ~ (forall r,
       may_end_as
         (main (merge_sort leP) (fun t => Z.of_nat t) (fun _ => true)
            {[ "passengers.csv" :=
                 csv_text (replicate (Z.to_nat 99999) (mkPassenger "Ann" 1 "1" "Kiel")) ]})
         r ->
       exists e, r = Throw e).
Proof.
  pose proof (replicate_loads (Z.to_nat 99999) _ row_ok_example) as Hload.
  assert (size (replicate (Z.to_nat 99999) (mkPassenger "Ann" 1 "1" "Kiel")) = 99999)
    as Hsize by (rewrite size_replicate; lia).
  assert (main (merge_sort leP) (fun t => Z.of_nat t) (fun _ => true)
            {[ "passengers.csv" :=
                 csv_text (replicate (Z.to_nat 99999) (mkPassenger "Ann" 1 "1" "Kiel")) ]}
          = Undef) as Hmain.
  { unfold main. rewrite Hload, bind_Ok.
    destruct (replicate (Z.to_nat 99999) (mkPassenger "Ann" 1 "1" "Kiel")) as [|p l] eqn:Hl;
      [unfold size in Hsize; simpl in Hsize; lia|].
    rewrite bench_past_end; [done|..].
    - eapply Forall_impl; [apply sizes_range|]. cbn. unfold INT_MAX. lia.
    - unfold sizes. rewrite !Exists_cons. do 10 right. left. lia. }
  split; [exact Hload|].
  split; [apply slice_past_end; lia|].
  split; [exact Hmain|].
  split; [intros fs'; by right|].
  intros Hall. destruct (Hall (Ok (0, ∅))) as [e He]; [by right|done].
Qed.

Lemma timing_log_header_runs_into_first_row_witness :
  exists fs' log first rest,
    main (merge_sort leP) (fun t => Z.of_nat t * 1000000) (fun _ => true)
      {[ "passengers.csv" :=
           csv_text (replicate (Z.to_nat 100000) (mkPassenger "Ann" 1 "1" "Kiel")) ]}
    = Ok (0, fs') /\
    fs' !! "timings.csv" = Some log /\
    getline newline log = Some (first, rest) /\
    first = "Size,SelectionSort,InsertionSort,QuickSort,StdSort100,1,1,1,1".
Proof.
  destruct (timing_log_header_runs_into_first_row (merge_sort leP)
              (fun t => Z.of_nat t * 1000000) (fun _ => true)
              {[ "passengers.csv" :=
                   csv_text (replicate (Z.to_nat 100000) (mkPassenger "Ann" 1 "1" "Kiel")) ]}
              (replicate (Z.to_nat 100000) (mkPassenger "Ann" 1 "1" "Kiel")))
    as (fs' & log & first & rest & Hmain & Hlog & _ & Hget & Hfirst & _).
  - apply replicate_loads, row_ok_example.
  - rewrite size_replicate; lia.
  - reflexivity.
  - exists fs', log, first, rest. split; [exact Hmain|]. split; [exact Hlog|].
    split; [exact Hget|]. rewrite Hfirst. reflexivity.
Defined.

Lemma main_exit_status_witness :
  main (merge_sort leP) (fun t => Z.of_nat t) (fun _ => true) ∅ = Ok (1, ∅) /\
  exists fs',
    main (merge_sort leP) (fun t => Z.of_nat t) (fun _ => true)
      {[ "passengers.csv" :=
           csv_text (replicate (Z.to_nat 100000) (mkPassenger "Ann" 1 "1" "Kiel")) ]}
    = Ok (0, fs').
Proof.
  split.
  - apply (main_exit_status (merge_sort leP) (fun t => Z.of_nat t) (fun _ => true) ∅).
    reflexivity.
  - eexists.
    apply (main_exit_status (merge_sort leP) (fun t => Z.of_nat t) (fun _ => true)
             {[ "passengers.csv" :=
                  csv_text (replicate (Z.to_nat 100000) (mkPassenger "Ann" 1 "1" "Kiel")) ]}).
    + apply replicate_loads, row_ok_example.
    + apply size_pos_nonempty. rewrite size_replicate; lia.
    + rewrite size_replicate; lia.
Defined.

(* ------------------------------------------------------------------ *)
(** * Further properties of the sorts *)

Lemma StronglySorted_lookup_lt (arr : vec) :
  StronglySorted leP arr ->
  forall (i j : nat) x y, (i < j)%nat ->
    arr !! i = Some x -> arr !! j = Some y -> leP x y.
Proof.
  induction 1 as [|a arr _ IH Hall]; intros i j x y Hij Hi Hj; [done|].
  destruct j as [|j]; [lia|]. destruct i as [|i].
  - injection Hi as <-. rewrite Forall_forall in Hall. apply Hall.
    apply list_elem_of_lookup. by exists j.
  - apply (IH i j); [lia|done|done].
Qed.

Lemma sorted_zlookup (arr : vec) :
  sorted arr ->
  forall i j x y, i <= j ->
    zlookup arr i = Some x -> zlookup arr j = Some y -> le x y = true.
Proof.
  intros Hs%sorted_strongly i j x y Hij Hx Hy.
  pose proof (zlookup_Some _ _ _ Hx). pose proof (zlookup_Some _ _ _ Hy).
  destruct (decide (i = j)) as [->|Hne].
  { rewrite Hx in Hy. injection Hy as <-. apply le_refl. }
  rewrite zlookup_nat in Hx, Hy by lia.
  apply (StronglySorted_lookup_lt arr Hs (Z.to_nat i) (Z.to_nat j)); [lia|done|done].
Qed.

(** On a sorted vector the inner loop of [selectionSort] keeps the index
    it starts from. *)
Lemma sel_min_sorted (arr : vec) (n i : Z) :
  sorted arr -> n <= size arr -> 0 <= i ->
  forall fuel j,
    i < j -> n - j <= Z.of_nat fuel -> sel_min fuel arr n j i = Ok i.
Proof.
  intros Hs Hn Hi fuel.
  induction fuel as [|fuel IH]; intros j Hj Hfuel; simpl;
    destruct (Z.ltb_spec j n) as [Hlt|Hge]; try done; try lia.
  destruct (zlookup_in_range arr j) as [aj Haj]; [lia|].
  destruct (zlookup_in_range arr i) as [ai Hai]; [lia|].
  rewrite (vget_zlookup _ _ _ Haj), (vget_zlookup _ _ _ Hai). simpl.
  pose proof (sorted_zlookup arr Hs i j ai aj ltac:(lia) Hai Haj) as Hle.
  unfold le in Hle. apply negb_true_iff in Hle. rewrite Hle.
  apply IH; lia.
Qed.

Lemma sel_loop_sorted (arr : vec) (n : Z) :
  sorted arr -> n <= size arr ->
  forall fuel i, 0 <= i -> n - 1 - i <= Z.of_nat fuel ->
    sel_loop fuel arr n i = Ok arr.
Proof.
  intros Hs Hn fuel.
  induction fuel as [|fuel IH]; intros i Hi Hfuel; simpl;
    destruct (Z.ltb_spec i (n - 1)) as [Hlt|Hge]; try done; try lia.
  rewrite (sel_min_sorted arr n i Hs Hn Hi) by (unfold size in *; lia). simpl.
  rewrite Z.eqb_refl. simpl. apply IH; lia.
Qed.

(** On a sorted vector the loop of [insertionSort] puts every record back
    where it was. *)
Lemma ins_loop_sorted (arr : vec) :
  sorted arr -> size arr <= INT_MAX ->
  forall fuel i, 1 <= i <= size arr + 1 -> size arr - i <= Z.of_nat fuel ->
    ins_loop fuel arr i = Ok arr.
Proof.
  intros Hs Hsmall fuel.
  induction fuel as [|fuel IH]; intros i Hi Hfuel; simpl;
    pose proof (size_nonneg arr);
    (rewrite to_size_t_small by (unfold INT_MAX, LONG_MAX in *; lia));
    destruct (Z.ltb_spec i (size arr)) as [Hlt|Hge]; try done; try lia.
  destruct (zlookup_in_range arr i) as [key Hkey]; [lia|].
  destruct (zlookup_in_range arr (i - 1)) as [prev Hprev]; [lia|].
  rewrite (vget_zlookup _ _ _ Hkey). simpl.
  assert (ins_shift (length arr) arr key (i - 1) = Ok (arr, i - 1)) as ->.
  { destruct (length arr); cbn [ins_shift]; unfold ins_cond;
      (destruct (Z.leb_spec 0 (i - 1)); [|lia]);
      rewrite (vget_zlookup _ _ _ Hprev); simpl; unfold gt;
      pose proof (sorted_zlookup arr Hs (i - 1) i prev key ltac:(lia) Hprev Hkey) as Hle;
      unfold le in Hle; apply negb_true_iff in Hle; by rewrite Hle. }
  simpl. replace (i - 1 + 1) with i by lia.
  rewrite vset_in_range by lia. simpl.
  rewrite list_insert_id by (by rewrite <- zlookup_nat by lia).
  destruct (Z.eqb_spec i INT_MAX); [lia|]. apply IH; lia.
Qed.

#[local] Instance key_le_trans : Transitive key_le.
Proof. intros a b c. apply le_trans. Qed.

#[local] Instance key_le_antisym : AntiSymm (=) key_le.
Proof.
  intros [[c1 d1] n1] [[c2 d2] n2]. unfold key_le, leP, le.
  rewrite !negb_true_iff. intros H21 H12.
  apply (lt_incomparable_key _ _ H12 H21).
Qed.

Lemma leP_key_le (a b : Passenger) : leP a b -> key_le (key a) (key b).
Proof.
  unfold key_le, leP, le. by rewrite (lt_key (of_key (key b)) b (of_key (key a)) a).
Qed.

(** Two sorted arrangements of the same records have the same keys, slot
    by slot. *)
Lemma sorted_Permutation_keys (r1 r2 : vec) :
  r1 ≡ₚ r2 -> sorted r1 -> sorted r2 -> key <$> r1 = key <$> r2.
Proof.
  intros Hperm Hs1 Hs2.
  apply (Sorted_unique key_le).
  - apply (Sorted_fmap key leP key_le); [apply leP_key_le|done].
  - apply (Sorted_fmap key leP key_le); [apply leP_key_le|done].
  - by apply fmap_Permutation.
Qed.

Section MoreSorts.

Variable std_sort : vec -> vec.
Hypothesis std_sort_sorts : forall arr, arr ≡ₚ std_sort arr /\ sorted (std_sort arr).

(** X1. [selectionSort] and [insertionSort] return a vector that is
    already sorted exactly as it was: records with equal keys keep their
    places. *)
Theorem sorted_input_is_kept (arr : vec) :
  sorted arr -> size arr <= INT_MAX ->
  selectionSort arr = Ok arr /\ insertionSort arr = Ok arr.
Proof.
  intros Hs Hsmall. pose proof (size_nonneg arr). split.
  - unfold selectionSort. rewrite to_int_small by (unfold INT_MIN; lia).
    destruct (Z.eqb_spec (size arr) INT_MIN) as [Heq|_];
      [unfold INT_MIN in Heq; lia|].
    apply sel_loop_sorted; [done|lia|lia|unfold size; lia].
  - unfold insertionSort. apply ins_loop_sorted; [done|done|lia|unfold size; lia].
Qed.

(** X2. The four sorts agree on the keys: on a non-empty vector of at most
    2^31-1 records the results of [selectionSort], [insertionSort],
    [quickSortR] and [std::sort] hold the same cabin number, destination
    port and full name in every slot (they can differ only in the order of
    records that have these three equal). *)
Theorem sorts_agree_on_keys (arr : vec) :
  arr <> [] -> size arr <= INT_MAX ->
  exists r1 r2 r3,
    selectionSort arr = Ok r1 /\ insertionSort arr = Ok r2 /\
    quickSortR arr = Ok r3 /\
    key <$> r1 = key <$> std_sort arr /\
    key <$> r2 = key <$> std_sort arr /\
    key <$> r3 = key <$> std_sort arr.
Proof.
  intros Hne Hsmall.
  destruct (selectionSort_sorts arr Hsmall) as (r1 & H1 & Hp1 & Hs1).
  destruct (insertionSort_sorts arr Hsmall) as (r2 & H2 & Hp2 & Hs2).
  destruct (quickSortR_sorts arr Hne) as (r3 & H3 & Hp3 & Hs3);
    [unfold INT_MAX, LONG_MAX in *; lia|].
  destruct (std_sort_sorts arr) as [Hp4 Hs4].
  exists r1, r2, r3. repeat split; try done;
    apply sorted_Permutation_keys; try done; by etrans; [symmetry|].
Qed.

End MoreSorts.

Lemma sorted_input_is_kept_witness :
  selectionSort [mkPassenger "A" 1 "2" "X"; mkPassenger "A" 1 "1" "X"]
    = Ok [mkPassenger "A" 1 "2" "X"; mkPassenger "A" 1 "1" "X"] /\
  insertionSort [mkPassenger "A" 1 "2" "X"; mkPassenger "A" 1 "1" "X"]
    = Ok [mkPassenger "A" 1 "2" "X"; mkPassenger "A" 1 "1" "X"].
Proof.
  apply sorted_input_is_kept.
  - repeat constructor.
  - vm_compute. discriminate.
Defined.

Lemma sorts_agree_on_keys_witness :
  exists r1 r2 r3,
    selectionSort [mkPassenger "B" 2 "1" "X"; mkPassenger "A" 1 "1" "X"] = Ok r1 /\
    insertionSort [mkPassenger "B" 2 "1" "X"; mkPassenger "A" 1 "1" "X"] = Ok r2 /\
    quickSortR [mkPassenger "B" 2 "1" "X"; mkPassenger "A" 1 "1" "X"] = Ok r3 /\
    key <$> r1 = key <$> merge_sort leP [mkPassenger "B" 2 "1" "X"; mkPassenger "A" 1 "1" "X"] /\
    key <$> r2 = key <$> merge_sort leP [mkPassenger "B" 2 "1" "X"; mkPassenger "A" 1 "1" "X"] /\
    key <$> r3 = key <$> merge_sort leP [mkPassenger "B" 2 "1" "X"; mkPassenger "A" 1 "1" "X"].
Proof.
  apply (sorts_agree_on_keys (merge_sort leP)
           (fun arr => conj (symmetry (merge_sort_Permutation leP arr))
                            (Sorted_merge_sort leP arr))).
  - discriminate.
  - vm_compute. discriminate.
Defined.

(** ** [insertionSort] is stable *)

Lemma zlookup_ext (a b : vec) : (forall k, zlookup a k = zlookup b k) -> a = b.
Proof.
  intros H. apply list_eq. intros n. specialize (H (Z.of_nat n)).
  by rewrite !zlookup_nat, Nat2Z.id in H by lia.
Qed.

Lemma zlookup_app (l1 l2 : vec) (k : Z) :
  zlookup (l1 ++ l2) k =
    if decide (k < size l1) then zlookup l1 k else zlookup l2 (k - size l1).
Proof.
  unfold zlookup, size. destruct (Z.leb_spec 0 k) as [Hk|Hk].
  - destruct (decide (k < Z.of_nat (length l1))).
    + apply lookup_app_l. lia.
    + destruct (Z.leb_spec 0 (k - Z.of_nat (length l1))); [|lia].
      rewrite lookup_app_r by lia. f_equal. lia.
  - destruct (decide _); [done|].
    destruct (Z.leb_spec 0 (k - Z.of_nat (length l1))); [lia|done].
Qed.

Lemma zlookup_cons (x : Passenger) (l : vec) (k : Z) :
  zlookup (x :: l) k = if decide (k = 0) then Some x else zlookup l (k - 1).
Proof.
  unfold zlookup. destruct (decide (k = 0)) as [->|Hne]; [done|].
  destruct (Z.leb_spec 0 k) as [Hk|Hk].
  - destruct (Z.leb_spec 0 (k - 1)); [|lia].
    replace (Z.to_nat k) with (S (Z.to_nat (k - 1))) by lia. done.
  - by destruct (Z.leb_spec 0 (k - 1)); [lia|].
Qed.

Lemma zlookup_take (l : vec) (n k : Z) :
  0 <= n -> zlookup (take (Z.to_nat n) l) k = if decide (k < n) then zlookup l k else None.
Proof.
  intros Hn. unfold zlookup. destruct (Z.leb_spec 0 k) as [Hk|Hk].
  - destruct (decide (k < n)).
    + apply lookup_take_lt. lia.
    + apply lookup_take_ge. lia.
  - by destruct (decide _).
Qed.

Lemma zlookup_drop (l : vec) (n k : Z) :
  0 <= n -> 0 <= k -> zlookup (drop (Z.to_nat n) l) k = zlookup l (n + k).
Proof.
  intros Hn Hk. rewrite !zlookup_nat by lia. rewrite lookup_drop. f_equal. lia.
Qed.

(** The vector after one pass of the outer loop, as a list: [key] has
    moved from slot [i] to slot [j + 1]. *)
Lemma ins_place_list (arr0 arr : vec) (key : Passenger) (i j : Z) :
  0 <= i < size arr0 -> -1 <= j < i ->
  zlookup arr0 i = Some key ->
  ins_inv arr0 arr key i j ->
  <[Z.to_nat (j + 1) := key]> arr =
    take (Z.to_nat (j + 1)) arr0
      ++ key :: drop (Z.to_nat (j + 1)) (take (Z.to_nat i) arr0)
      ++ drop (Z.to_nat (i + 1)) arr0.
Proof.
  intros Hi Hj Hkey (Hsize & Hperm & Hlow & Hmid & Hgt & Hhigh).
  apply zlookup_ext. intros k.
  rewrite zlookup_insert by lia.
  rewrite zlookup_app, size_take, zlookup_take by lia.
  destruct (decide (k = j + 1)) as [->|Hne].
  { destruct (decide (j + 1 < j + 1)); [lia|].
    rewrite zlookup_cons. by destruct (decide (j + 1 - (j + 1) = 0)); [|lia]. }
  destruct (decide (k < j + 1)); [apply Hlow; lia|].
  rewrite zlookup_cons. destruct (decide (k - (j + 1) = 0)); [lia|].
  rewrite zlookup_app, size_drop, size_take by (rewrite ?size_take; lia).
  destruct (decide (k - (j + 1) - 1 < i - (j + 1))).
  - rewrite zlookup_drop, zlookup_take by lia.
    destruct (decide (j + 1 + (k - (j + 1) - 1) < i)); [|lia].
    rewrite Hmid by lia. f_equal. lia.
  - rewrite zlookup_drop by lia. rewrite Hhigh by lia. f_equal. lia.
Qed.

(** The vector before the pass, split at the same places. *)
Lemma ins_split_list (arr0 : vec) (key : Passenger) (i j : Z) :
  0 <= i < size arr0 -> -1 <= j < i ->
  zlookup arr0 i = Some key ->
  arr0 =
    take (Z.to_nat (j + 1)) arr0
      ++ drop (Z.to_nat (j + 1)) (take (Z.to_nat i) arr0)
      ++ key :: drop (Z.to_nat (i + 1)) arr0.
Proof.
  intros Hi Hj Hkey. apply zlookup_ext. intros k.
  rewrite zlookup_app, size_take, zlookup_take by lia.
  destruct (decide (k < j + 1)); [done|].
  rewrite zlookup_app, size_drop, size_take by (rewrite ?size_take; lia).
  destruct (decide (k - (j + 1) < i - (j + 1))).
  - rewrite zlookup_drop, zlookup_take by lia.
    destruct (decide (j + 1 + (k - (j + 1)) < i)); [|lia]. f_equal. lia.
  - rewrite zlookup_cons.
    destruct (decide (k - (j + 1) - (i - (j + 1)) = 0)).
    + rewrite <- Hkey. f_equal. lia.
    + rewrite zlookup_drop by lia. f_equal. lia.
Qed.

(** One pass does not change the order of the records of any one key. *)
Lemma ins_place_stable (arr0 arr : vec) (key0 : Passenger) (i j : Z)
    (k : Z * string * string) :
  0 <= i < size arr0 -> -1 <= j < i ->
  zlookup arr0 i = Some key0 ->
  ins_inv arr0 arr key0 i j ->
  filter (fun p => key p = k) (<[Z.to_nat (j + 1) := key0]> arr)
  = filter (fun p => key p = k) arr0.
Proof.
  intros Hi Hj Hkey Hinv.
  rewrite (ins_place_list arr0 arr key0 i j) by done.
  rewrite (ins_split_list arr0 key0 i j) at 4 by done.
  rewrite !filter_app, !filter_cons, !filter_app.
  destruct (decide (key key0 = k)) as [Hk|Hk]; [|done].
  (* the records that were passed are greater than [key0] *)
  assert (filter (fun p => key p = k)
            (drop (Z.to_nat (j + 1)) (take (Z.to_nat i) arr0)) = []) as ->; [|done].
  destruct Hinv as (_ & _ & _ & _ & Hgt & _).
  apply elem_of_nil_inv. intros x [Hkx Hx]%list_elem_of_filter.
  apply elem_of_drop_zlookup in Hx as (n & Hn & Hx).
  rewrite zlookup_take in Hx by lia.
  destruct (decide (n < i)); [|done].
  pose proof (Hgt n x ltac:(lia) Hx) as Hlt.
  rewrite (lt_key key0 x x x) in Hlt by congruence.
  by rewrite lt_irrefl in Hlt.
Qed.

Lemma ins_loop_stable (k : Z * string * string) :
  forall fuel arr i,
    size arr <= INT_MAX -> 1 <= i <= size arr + 1 ->
    size arr - i <= Z.of_nat fuel ->
    exists arr',
      ins_loop fuel arr i = Ok arr' /\
      filter (fun p => key p = k) arr' = filter (fun p => key p = k) arr.
Proof.
  induction fuel as [|fuel IH]; intros arr i Hsmall Hi Hfuel; simpl;
    pose proof (size_nonneg arr);
    (rewrite to_size_t_small by (unfold INT_MAX, LONG_MAX in *; lia));
    destruct (Z.ltb_spec i (size arr)) as [Hlt|Hge];
    try (by exists arr); try lia.
  destruct (zlookup_in_range arr i) as [key0 Hkey]; [lia|].
  rewrite (vget_zlookup _ _ _ Hkey). simpl.
  destruct (ins_shift_spec arr key0 i ltac:(lia) (length arr) arr (i - 1))
    as (arr1 & j & -> & Hj & Hinv & _); [lia|unfold size in *; lia|..].
  { split; [done|]. replace (i - 1 + 1) with i by lia.
    split; [|split; [|split; [|split]]]; try done.
    - rewrite list_insert_id; [done|]. by rewrite <- zlookup_nat by lia.
    - intros n Hn. lia.
    - intros n x Hn. lia. }
  simpl. pose proof Hinv as (Hsize1 & _).
  rewrite vset_in_range by lia. simpl.
  destruct (Z.eqb_spec i INT_MAX) as [->|_]; [lia|].
  destruct (IH (<[Z.to_nat (j + 1) := key0]> arr1) (i + 1))
    as (arr' & -> & Hfilter); rewrite ?size_insert; try lia.
  exists arr'. split; [done|]. rewrite Hfilter.
  apply (ins_place_stable arr arr1 key0 i j); [lia|lia|done|done].
Qed.

(** X3. [insertionSort] is stable: for every key (cabin number,
    destination port, full name) the records with that key stand in the
    result in the order they had in the input. *)
Theorem insertionSort_stable (arr : vec) (k : Z * string * string) :
  size arr <= INT_MAX ->
  exists r,
    insertionSort arr = Ok r /\
    filter (fun p => key p = k) r = filter (fun p => key p = k) arr.
Proof.
  intros Hsmall. pose proof (size_nonneg arr).
  apply ins_loop_stable; [done|lia|unfold size; lia].
Qed.

Lemma insertionSort_stable_witness :
  exists r,
    insertionSort [mkPassenger "B" 2 "1" "X"; mkPassenger "A" 1 "Lux" "X";
                   mkPassenger "A" 1 "3" "X"] = Ok r /\
    filter (fun p => key p = (1, "X", "A")) r
    = filter (fun p => key p = (1, "X", "A"))
        [mkPassenger "B" 2 "1" "X"; mkPassenger "A" 1 "Lux" "X";
         mkPassenger "A" 1 "3" "X"].
Proof.
  apply insertionSort_stable. vm_compute. discriminate.
Defined.

(** ** Beyond the range of [int] *)

(** With more than [INT_MAX] records the loop of [insertionSort] reaches
    [i = INT_MAX] and increments it. *)
Lemma ins_loop_overflow :
  forall fuel arr i,
    INT_MAX < size arr -> 1 <= i <= INT_MAX ->
    INT_MAX - i < Z.of_nat fuel ->
    ins_loop fuel arr i = Undef.
Proof.
  induction fuel as [|fuel IH]; intros arr i Hbig Hi Hfuel; [lia|].
  simpl. rewrite to_size_t_small by (unfold INT_MAX, LONG_MAX in *; lia).
  destruct (Z.ltb_spec i (size arr)) as [Hlt|Hge]; [|lia].
  destruct (zlookup_in_range arr i) as [key0 Hkey]; [lia|].
  rewrite (vget_zlookup _ _ _ Hkey). simpl.
  destruct (ins_shift_spec arr key0 i ltac:(lia) (length arr) arr (i - 1))
    as (arr1 & j & -> & Hj & Hinv & _); [lia|unfold size in *; lia|..].
  { split; [done|]. replace (i - 1 + 1) with i by lia.
    split; [|split; [|split; [|split]]]; try done.
    - rewrite list_insert_id; [done|]. by rewrite <- zlookup_nat by lia.
    - intros n Hn. lia.
    - intros n x Hn. lia. }
  simpl. pose proof Hinv as (Hsize1 & _).
  rewrite vset_in_range by lia. simpl.
  destruct (Z.eqb_spec i INT_MAX) as [->|Hne]; [done|].
  apply IH; rewrite ?size_insert; lia.
Qed.

(** X4. The two sorts that index with [int] on a vector of more than
    2^31-1 records: [insertionSort] overflows its index (undefined
    behaviour); [selectionSort] has a wrong [n]: when [n = INT_MIN] the
    bound [n - 1] overflows, and when [n <= 1] otherwise the vector comes
    back untouched. *)
Theorem sorts_beyond_int (arr : vec) :
  INT_MAX < size arr ->
  insertionSort arr = Undef /\
  (to_int (size arr) = INT_MIN -> selectionSort arr = Undef) /\
  (INT_MIN < to_int (size arr) <= 1 -> selectionSort arr = Ok arr).
Proof.
  intros Hbig. split; [|split].
  - unfold insertionSort. apply ins_loop_overflow; [done|unfold INT_MAX; lia|].
    unfold size in Hbig. lia.
  - intros Hn. unfold selectionSort. by rewrite Hn.
  - intros Hn. unfold selectionSort.
    destruct (Z.eqb_spec (to_int (size arr)) INT_MIN) as [Heq|_]; [lia|].
    apply sel_loop_done. lia.
Qed.

Lemma sorts_beyond_int_witness :
  insertionSort (replicate (Z.to_nat 2147483648) (mkPassenger "" 0 "" "")) = Undef /\
  selectionSort (replicate (Z.to_nat 2147483648) (mkPassenger "" 0 "" "")) = Undef.
Proof.
  destruct (sorts_beyond_int (replicate (Z.to_nat 2147483648) (mkPassenger "" 0 "" "")))
    as (H1 & H2 & _).
  - rewrite size_replicate by lia. unfold INT_MAX. lia.
  - split; [exact H1|]. apply H2. rewrite size_replicate by lia. reflexivity.
Defined.

(** ** The partition of [quickSortR] *)

(** X5. The partition loop of [quickSortR], started on a whole vector with
    a pivot [p] taken from it, never leaves the vector and returns a
    permutation with crossed indices [j < i]: no record before index [i]
    is greater than [p], no record after index [j] is less than [p], and
    the records strictly between [j] and [i] have the keys of [p]. *)
Theorem partition_splits_around_pivot (arr : vec) (p : Passenger) (mid : Z) :
  zlookup arr mid = Some p ->
  exists arr1 i j,
    partition (length arr) arr p 0 (size arr - 1) = Ok (arr1, i, j) /\
    arr ≡ₚ arr1 /\ j < i /\
    forall k x, zlookup arr1 k = Some x ->
      (k < i -> le x p = true) /\
      (j < k -> le p x = true) /\
      (j < k < i -> key x = key p).
Proof.
  intros Hp.
  destruct (partition_spec p (length arr) arr 0 (size arr - 1))
    as (arr1 & i & j & Hpart & Hperm & Hji & Hi & Hj & Hlow & Hhigh);
    [by apply (part_pre_whole arr p mid)|unfold size; lia|].
  exists arr1, i, j. split; [done|]. split; [done|]. split; [done|].
  intros k x Hx. split; [|split].
  - intros Hk. unfold le. by rewrite (Hlow k x Hk Hx).
  - intros Hk. unfold le. by rewrite (Hhigh k x Hk Hx).
  - intros [Hk1 Hk2]. apply lt_incomparable_key; [by apply (Hhigh k)|by apply (Hlow k)].
Qed.

Lemma partition_splits_around_pivot_witness :
  exists arr1 i j,
    partition 3 [mkPassenger "C" 3 "" ""; mkPassenger "B" 2 "" ""; mkPassenger "A" 1 "" ""]
      (mkPassenger "B" 2 "" "") 0 2 = Ok (arr1, i, j) /\ j < i.
Proof.
  destruct (partition_splits_around_pivot
              [mkPassenger "C" 3 "" ""; mkPassenger "B" 2 "" ""; mkPassenger "A" 1 "" ""]
              (mkPassenger "B" 2 "" "") 1 eq_refl)
    as (arr1 & i & j & H & _ & Hji & _).
  by exists arr1, i, j.
Defined.

(* ------------------------------------------------------------------ *)
(** * Further properties of the loader and the writer *)

Lemma getfield_split_at (s : string) : getfield s = split_at comma s.
Proof. by destruct s. Qed.

Lemma occurs_split_at_fst (d : Ascii.ascii) (s : string) :
  occurs d (split_at d s).1 = false.
Proof.
  induction s as [|c s IH]; cbn; [done|].
  destruct (Ascii.eqb c d) eqn:Hc; cbn; [done|].
  destruct (split_at d s) as [l r]. cbn in *. by rewrite Hc, IH.
Qed.

Lemma occurs_split_at (c d : Ascii.ascii) (s : string) :
  occurs c s = false ->
  occurs c (split_at d s).1 = false /\ occurs c (split_at d s).2 = false.
Proof.
  induction s as [|e s IH]; cbn; [done|].
  intros [He Hs]%orb_false_elim. destruct (IH Hs) as [IH1 IH2].
  destruct (Ascii.eqb e d); cbn; [done|].
  destruct (split_at d s) as [l r]. cbn in *. by rewrite He, IH1, IH2.
Qed.

Lemma occurs_skip_fields (c : Ascii.ascii) (k : nat) :
  forall s, occurs c s = false -> occurs c (skip_fields k s) = false.
Proof.
  induction k as [|k IH]; intros s Hs; cbn; [done|].
  apply IH. rewrite getfield_split_at. by apply occurs_split_at.
Qed.

Lemma nth_field_ok (k : nat) (s : string) :
  occurs newline s = false -> field_ok (nth_field k s).
Proof.
  intros Hs. unfold field_ok, nth_field. rewrite getfield_split_at. split.
  - apply occurs_split_at_fst.
  - by apply occurs_split_at, occurs_skip_fields.
Qed.

Lemma parse_row_fields (line : string) :
  parse_row line =
    n ← stoi (nth_field 1 line);
    Ok (mkPassenger (nth_field 0 line) n (nth_field 2 line) (nth_field 3 line)).
Proof. apply parse_row_second_field. Qed.

Lemma stoi_in_int (s : string) (n : Z) : stoi s = Ok n -> in_int n.
Proof.
  intros Hs. destruct (stoi_outcome s) as [(m & Hm & Hint)|(e & He)]; congruence.
Qed.

(** What it is for a line to parse to a record. *)
Lemma parse_row_Ok (line : string) (p : Passenger) :
  parse_row line = Ok p <->
  stoi (nth_field 1 line) = Ok (cabinNumber p) /\
  fullName p = nth_field 0 line /\
  cabinType p = nth_field 2 line /\
  destinationPort p = nth_field 3 line.
Proof.
  rewrite parse_row_fields. split.
  - destruct (stoi (nth_field 1 line)) as [n| | |]; try done.
    simpl. by intros [= <-].
  - intros (-> & Hn & Ht & Hd). simpl. destruct p. cbn in *. by subst.
Qed.

Lemma parse_row_row_ok (line : string) (p : Passenger) :
  occurs newline line = false -> parse_row line = Ok p -> row_ok p.
Proof.
  intros Hline (Hn & Hf & Ht & Hd)%parse_row_Ok.
  split; [by apply (stoi_in_int _ _ Hn)|].
  rewrite Hf, Ht, Hd. repeat split; by apply nth_field_ok.
Qed.

Lemma lines_of_no_newline (fuel : nat) :
  forall input, Forall (fun row => occurs newline row = false) (lines_of fuel input).
Proof.
  induction fuel as [|fuel IH]; intros input; cbn [lines_of];
    destruct (getline newline input) as [[line rest]|] eqn:Hget; try done.
  constructor; [|apply IH].
  unfold getline in Hget. destruct input as [|c input]; [done|].
  assert (split_at newline (String c input) = (line, rest)) as Heq by congruence.
  pose proof (occurs_split_at_fst newline (String c input)) as Hfst.
  by rewrite Heq in Hfst.
Qed.

Lemma parse_rows_Ok (rows : list string) :
  forall passengers,
    parse_rows rows = Ok passengers <->
    Forall2 (fun row p => parse_row row = Ok p) rows passengers.
Proof.
  induction rows as [|row rows IH]; intros passengers; cbn [parse_rows].
  - split; [intros [= <-]; constructor|by intros ->%Forall2_nil_inv_l].
  - split.
    + destruct (parse_row row) as [p| | |] eqn:Hp; try done. simpl.
      destruct (parse_rows rows) as [ps| | |] eqn:Hps; try done. simpl.
      intros [= <-]. constructor; [done|]. by apply IH.
    + intros (p & ps & Hp & Hps & ->)%Forall2_cons_inv_l.
      rewrite Hp. simpl. apply IH in Hps. by rewrite Hps.
Qed.

(** The records of a loaded data set can stand on a line each. *)
Lemma loadPassengers_row_ok (fs : filesystem) (filename : string) (passengers : vec) :
  loadPassengers fs filename = Ok passengers -> Forall row_ok passengers.
Proof.
  intros Hload.
  destruct (fs !! filename) as [content|] eqn:Hfile.
  2: { unfold loadPassengers in Hload. rewrite Hfile in Hload.
       injection Hload as <-. constructor. }
  rewrite (loadPassengers_data_rows _ _ _ Hfile) in Hload.
  apply parse_rows_Ok in Hload.
  pose proof (lines_of_no_newline (String.length content)
                (match getline newline content with
                 | Some (_, r) => r
                 | None => EmptyString
                 end)) as Hlines.
  fold (data_rows content) in Hlines.
  induction Hload as [|row p rows ps Hp _ IH]; [constructor|].
  apply Forall_cons in Hlines as [Hrow Hlines].
  constructor; [by apply (parse_row_row_ok row)|by apply IH].
Qed.

Section MoreFiles.

Variable can_create : string -> bool.

(** X6. What [loadPassengers] returns from a file that opens is one
    record for each line after the header, in the order of the file, made
    of the first four pieces of the line cut at its commas, the second
    read by [std::stoi]; and it returns only if [std::stoi] accepts the
    second piece of every such line. *)
Theorem loadPassengers_rows
    (fs : filesystem) (filename content : string) (passengers : vec) :
  fs !! filename = Some content ->
  loadPassengers fs filename = Ok passengers <->
  Forall2 (fun row p =>
             stoi (nth_field 1 row) = Ok (cabinNumber p) /\
             fullName p = nth_field 0 row /\
             cabinType p = nth_field 2 row /\
             destinationPort p = nth_field 3 row)
          (data_rows content) passengers.
Proof.
  intros Hfile. rewrite (loadPassengers_data_rows _ _ _ Hfile), parse_rows_Ok.
  split; intros H; (eapply Forall2_impl; [exact H|]); intros row p;
    by rewrite parse_row_Ok.
Qed.

(** X7. The first line that [std::stoi] rejects decides the exception:
    when the lines before it parse, [loadPassengers] ends with the
    exception of that line, whatever follows. *)
Theorem first_malformed_row_decides
    (fs : filesystem) (filename content : string)
    (good : list string) (bad : string) (rest : list string) (e : exn) :
  fs !! filename = Some content ->
  data_rows content = good ++ bad :: rest ->
  Forall (fun row => exists n, stoi (nth_field 1 row) = Ok n) good ->
  stoi (nth_field 1 bad) = Throw e ->
  loadPassengers fs filename = Throw e.
Proof.
  intros Hfile Hrows Hgood Hbad.
  rewrite (loadPassengers_data_rows _ _ _ Hfile), Hrows. clear Hrows.
  induction Hgood as [|row good [n Hn] _ IH]; cbn [app parse_rows];
    rewrite parse_row_fields.
  - by rewrite Hbad.
  - rewrite Hn. simpl. by rewrite IH.
Qed.

(** X8. Every record that [loadPassengers] returns has a cabin number in
    the range of [int] and no comma or line feed in its text fields, so
    that a loaded data set, as [main] does with its sorted prefixes, is
    written by [savePassengers] and read back unchanged. *)
Theorem loaded_records_round_trip
    (fs : filesystem) (filename : string) (passengers : vec) :
  loadPassengers fs filename = Ok passengers ->
  Forall row_ok passengers /\
  forall fs' out,
    can_create out = true ->
    loadPassengers (savePassengers can_create out passengers fs') out = Ok passengers.
Proof.
  intros Hload.
  pose proof (loadPassengers_row_ok _ _ _ Hload) as Hok.
  split; [done|]. intros fs' out Hcreate.
  apply loadPassengers_csv_text; [|done].
  unfold savePassengers, write_file. rewrite Hcreate. apply lookup_insert_eq.
Qed.

End MoreFiles.

Lemma loadPassengers_rows_witness :
  loadPassengers {[ "passengers.csv" := "name,cabin,class,port
Ann, 17b,Lux,Kiel,more
Bob,2
" ]} "passengers.csv"
  = Ok [mkPassenger "Ann" 17 "Lux" "Kiel"; mkPassenger "Bob" 2 "" ""].
Proof.
  apply (loadPassengers_rows _ "passengers.csv" "name,cabin,class,port
Ann, 17b,Lux,Kiel,more
Bob,2
"); [reflexivity|].
  assert (data_rows "name,cabin,class,port
Ann, 17b,Lux,Kiel,more
Bob,2
" = ["Ann, 17b,Lux,Kiel,more"; "Bob,2"]) as -> by (vm_compute; reflexivity).
  repeat constructor; vm_compute; reflexivity.
Defined.

Lemma first_malformed_row_decides_witness :
  loadPassengers {[ "passengers.csv" := "name,cabin,class,port
Ann,1,Lux,Kiel
Bob,99999999999,1,Kiel
Cy,x,1,Kiel
" ]} "passengers.csv" = Throw out_of_range.
Proof.
  apply (first_malformed_row_decides _ "passengers.csv" "name,cabin,class,port
Ann,1,Lux,Kiel
Bob,99999999999,1,Kiel
Cy,x,1,Kiel
" ["Ann,1,Lux,Kiel"] "Bob,99999999999,1,Kiel" ["Cy,x,1,Kiel"]).
  - reflexivity.
  - vm_compute. reflexivity.
  - constructor; [|constructor]. exists 1. vm_compute. reflexivity.
  - vm_compute. reflexivity.
Defined.

Lemma loaded_records_round_trip_witness :
  loadPassengers
    (savePassengers (fun _ => true) "sorted/ss_100.csv"
       [mkPassenger "Ann" 17 "Lux" "Kiel"] ∅) "sorted/ss_100.csv"
  = Ok [mkPassenger "Ann" 17 "Lux" "Kiel"].
Proof.
  destruct (loaded_records_round_trip (fun _ => true)
              {[ "passengers.csv" := "name,cabin,class,port
Ann, 17b,Lux,Kiel,more
" ]} "passengers.csv" [mkPassenger "Ann" 17 "Lux" "Kiel"]) as [_ H].
  - vm_compute. reflexivity.
  - apply H. reflexivity.
Defined.

(** ** Lines that are not as [savePassengers] writes them *)

Lemma skip_space_app (ws s : string) :
  spaces_only ws = true -> skip_space (ws +:+ s) = skip_space s.
Proof.
  induction ws as [|c ws IH]; [done|]. cbn [spaces_only].
  intros [Hc Hws]%andb_prop. rewrite string_app_cons. cbn [skip_space].
  rewrite Hc. by apply IH.
Qed.

Lemma spaces_only_no_comma (ws : string) :
  spaces_only ws = true -> occurs comma ws = false.
Proof.
  induction ws as [|c ws IH]; [done|]. cbn.
  intros [Hc Hws]%andb_prop. rewrite (IH Hws), orb_false_r.
  destruct (Ascii.eqb_spec c comma) as [->|]; [|done]. by vm_compute in Hc.
Qed.

Lemma dec_digits_app (fuel : nat) (junk : string) :
  forall n acc, dec_digits fuel n acc +:+ junk = dec_digits fuel n (acc +:+ junk).
Proof.
  induction fuel as [|fuel IH]; intros n acc; cbn [dec_digits]; [done|].
  destruct (n <? 10); [done|]. by rewrite IH.
Qed.

Lemma read_digits_stop (junk : string) (v : Z) :
  starts_with_digit junk = false -> read_digits junk v = v.
Proof. destruct junk as [|c junk]; [done|]. cbn. by destruct (digit_of c). Qed.

(** [std::stoi] on a number with blanks before it and text after it. *)
Lemma stoi_lenient (ws junk : string) (n : Z) :
  spaces_only ws = true -> in_int n -> starts_with_digit junk = false ->
  stoi (ws +:+ to_string n +:+ junk) = Ok n.
Proof.
  intros Hws [Hlo Hhi] Hjunk. unfold stoi. rewrite (skip_space_app _ _ Hws).
  unfold to_string.
  destruct (Z.ltb_spec n 0) as [Hneg|Hpos].
  - rewrite string_app_cons, dec_digits_app, string_app_nil_l. cbn [skip_space].
    change (is_space "-") with false. cbv iota.
    change (Ascii.eqb "-" "-") with true. cbv iota.
    destruct (dec_digits_head (Z.to_nat (Z.log2 (- n))) (- n) junk)
      as (d & s & Hd & Hs); [lia|].
    unfold starts_with_digit. rewrite Hs.
    destruct (digit_char_facts d Hd) as [-> _]. rewrite <- Hs.
    rewrite read_dec_digits by (apply log2_decimal_bound; lia).
    rewrite read_digits_stop by done. rewrite Z.opp_involutive.
    destruct (Z.leb_spec INT_MIN n); [|lia].
    by destruct (Z.leb_spec n INT_MAX); [|lia].
  - rewrite dec_digits_app, string_app_nil_l.
    destruct (dec_digits_head (Z.to_nat (Z.log2 n)) n junk)
      as (d & s & Hd & Hs); [lia|].
    rewrite Hs. cbn [skip_space].
    destruct (digit_char_facts d Hd) as (Hdig & -> & -> & ->).
    unfold starts_with_digit. rewrite Hdig. rewrite <- Hs.
    rewrite read_dec_digits by (apply log2_decimal_bound; lia).
    rewrite read_digits_stop by done.
    destruct (Z.leb_spec INT_MIN n); [|lia].
    by destruct (Z.leb_spec n INT_MAX); [|lia].
Qed.

(** X9. The loop of [loadPassengers] is lenient with a line: white space
    before the cabin number, text after its digits and everything from a
    fourth comma on are dropped without a trace. *)
Theorem parse_row_lenient
    (name ws junk ty port extra : string) (n : Z) :
  occurs comma name = false -> occurs comma ty = false ->
  occurs comma port = false ->
  spaces_only ws = true -> in_int n ->
  occurs comma junk = false -> starts_with_digit junk = false ->
  parse_row (name +:+ "," +:+ (ws +:+ to_string n +:+ junk) +:+ "," +:+ ty
               +:+ "," +:+ port +:+ "," +:+ extra)
  = Ok (mkPassenger name n ty port).
Proof.
  intros Hname Hty Hport Hws Hn Hjunk Hjunk'.
  assert (occurs comma (ws +:+ to_string n +:+ junk) = false) as Hnum.
  { destruct (to_string_field_ok n) as [Hc _].
    by rewrite !occurs_app, (spaces_only_no_comma _ Hws), Hc, Hjunk. }
  unfold parse_row. rewrite !comma_app.
  rewrite (getfield_delim _ _ Hname), (getfield_delim _ _ Hnum),
    (getfield_delim _ _ Hty), (getfield_delim _ _ Hport).
  by rewrite stoi_lenient.
Qed.

(** X10. Short lines. A line with a name and a number only gives a record
    with an empty cabin type and destination port; a line without any
    comma, the empty line among them, has no number and ends the load
    with [std::invalid_argument]. *)
Theorem parse_row_short (name line : string) (n : Z) :
  (occurs comma name = false -> in_int n ->
   parse_row (name +:+ "," +:+ to_string n) = Ok (mkPassenger name n "" "")) /\
  (occurs comma line = false -> parse_row line = Throw invalid_argument).
Proof.
  split.
  - intros Hname Hn. destruct (to_string_field_ok n) as [Hc _].
    unfold parse_row. rewrite comma_app, (getfield_delim _ _ Hname), (getfield_end _ Hc).
    cbn [getfield getline]. by rewrite stoi_to_string.
  - intros Hline. unfold parse_row. rewrite (getfield_end _ Hline). by cbn.
Qed.

Lemma parse_row_lenient_witness :
  parse_row ("Ann" +:+ "," +:+ (" " +:+ to_string 17 +:+ "b") +:+ "," +:+ "Lux"
               +:+ "," +:+ "Kiel" +:+ "," +:+ "more,and more")
  = Ok (mkPassenger "Ann" 17 "Lux" "Kiel").
Proof. apply parse_row_lenient; vm_compute; (reflexivity || (split; discriminate)). Defined.

Lemma parse_row_short_witness :
  parse_row ("Bob" +:+ "," +:+ to_string 2) = Ok (mkPassenger "Bob" 2 "" "") /\
  parse_row "" = Throw invalid_argument.
Proof.
  destruct (parse_row_short "Bob" "" 2) as [H1 H2].
  split; [apply H1; vm_compute; (reflexivity || (split; discriminate))|].
  apply H2. reflexivity.
Defined.

Lemma stoi_out_of_range (n : Z) (junk : string) :
  ~ in_int n -> starts_with_digit junk = false ->
  stoi (to_string n +:+ junk) = Throw out_of_range.
Proof.
  intros Hn Hjunk. unfold in_int in Hn. unfold stoi, to_string.
  destruct (Z.ltb_spec n 0) as [Hneg|Hpos].
  - rewrite string_app_cons, dec_digits_app, string_app_nil_l. cbn [skip_space].
    change (is_space "-") with false. cbv iota.
    change (Ascii.eqb "-" "-") with true. cbv iota.
    destruct (dec_digits_head (Z.to_nat (Z.log2 (- n))) (- n) junk)
      as (d & s & Hd & Hs); [lia|].
    unfold starts_with_digit. rewrite Hs.
    destruct (digit_char_facts d Hd) as [-> _]. rewrite <- Hs.
    rewrite read_dec_digits by (apply log2_decimal_bound; lia).
    rewrite read_digits_stop by done. rewrite Z.opp_involutive.
    destruct (Z.leb_spec INT_MIN n); [|done].
    destruct (Z.leb_spec n INT_MAX); [lia|done].
  - rewrite dec_digits_app, string_app_nil_l.
    destruct (dec_digits_head (Z.to_nat (Z.log2 n)) n junk)
      as (d & s & Hd & Hs); [lia|].
    rewrite Hs. cbn [skip_space].
    destruct (digit_char_facts d Hd) as (Hdig & -> & -> & ->).
    unfold starts_with_digit. rewrite Hdig. rewrite <- Hs.
    rewrite read_dec_digits by (apply log2_decimal_bound; lia).
    rewrite read_digits_stop by done.
    destruct (Z.leb_spec INT_MIN n); [|done].
    destruct (Z.leb_spec n INT_MAX); [lia|done].
Qed.

(** X15. A cabin number that does not fit an [int] is not wrapped or cut:
    the line ends the load with [std::out_of_range]. *)
Theorem parse_row_out_of_range (name rest : string) (n : Z) :
  occurs comma name = false -> ~ in_int n ->
  parse_row (name +:+ "," +:+ to_string n +:+ "," +:+ rest) = Throw out_of_range.
Proof.
  intros Hname Hn. destruct (to_string_field_ok n) as [Hc _].
  unfold parse_row. rewrite !comma_app.
  rewrite (getfield_delim _ _ Hname), (getfield_delim _ _ Hc).
  destruct (getfield rest) as [ty s3]. destruct (getfield s3) as [port s4].
  rewrite <- (string_app_nil_r (to_string n)) at 1.
  by rewrite stoi_out_of_range.
Qed.

Lemma parse_row_out_of_range_witness :
  parse_row ("Ann" +:+ "," +:+ to_string 2147483648 +:+ "," +:+ "Lux,Kiel")
  = Throw out_of_range.
Proof.
  apply parse_row_out_of_range; [reflexivity|].
  unfold in_int, INT_MIN, INT_MAX. lia.
Defined.

(* ------------------------------------------------------------------ *)
(** * Further properties of the driver *)

Lemma value_to_string (n : Z) (junk : string) :
  starts_with_digit junk = false -> value (to_string n +:+ junk) = n.
Proof.
  intros Hjunk. unfold to_string.
  destruct (Z.ltb_spec n 0) as [Hneg|Hpos].
  - rewrite string_app_cons, dec_digits_app, string_app_nil_l. cbn [value].
    change (Ascii.eqb "-" "-") with true. cbv iota.
    rewrite read_dec_digits by (apply log2_decimal_bound; lia).
    rewrite read_digits_stop by done. lia.
  - rewrite dec_digits_app, string_app_nil_l.
    destruct (dec_digits_head (Z.to_nat (Z.log2 n)) n junk)
      as (d & s & Hd & Hs); [lia|].
    unfold value. rewrite Hs.
    destruct (digit_char_facts d Hd) as (_ & _ & -> & _). rewrite <- Hs.
    rewrite read_dec_digits by (apply log2_decimal_bound; lia).
    by rewrite read_digits_stop.
Qed.

(** Different sizes and different algorithms give different files. *)
Lemma sorted_name_inj (a1 a2 : string) (s1 s2 : Z) :
  a1 ∈ ["ss"; "is"; "qs"] -> a2 ∈ ["ss"; "is"; "qs"] ->
  sorted_name a1 s1 = sorted_name a2 s2 -> a1 = a2 /\ s1 = s2.
Proof.
  intros H1 H2 Heq. unfold sorted_name in Heq.
  assert (forall x y s, ("sorted/" +:+ s +:+ "_" +:+ x = "sorted/" +:+ s +:+ "_" +:+ y) ->
                        s ∈ ["ss"; "is"; "qs"] -> x = y) as Hcancel.
  { intros x y s Hxy Hs. repeat (apply elem_of_cons in Hs as [->|Hs]);
      [..|by apply elem_of_nil in Hs]; by injection Hxy. }
  assert (a1 = a2) as ->.
  { repeat (apply elem_of_cons in H1 as [->|H1]); [..|by apply elem_of_nil in H1];
      repeat (apply elem_of_cons in H2 as [->|H2]); try (by apply elem_of_nil in H2);
      try done; by injection Heq. }
  split; [done|]. apply Hcancel in Heq; [|done].
  apply (f_equal value) in Heq. by rewrite !value_to_string in Heq.
Qed.

Lemma sorted_name_prefix (a : string) (s : Z) :
  String.prefix "sorted/" (sorted_name a s) = true.
Proof.
  unfold sorted_name. rewrite !string_app_cons, string_app_nil_l. cbn.
  by destruct (a +:+ _).
Qed.

Section MoreDriver.

Variable can_create : string -> bool.

Lemma write_file_other (name filename content : string) (fs : filesystem) :
  name <> filename -> write_file can_create filename content fs !! name = fs !! name.
Proof.
  intros Hne. unfold write_file. destruct (can_create filename); [|done].
  by apply lookup_insert_ne.
Qed.

Lemma save_sorted_expand (allPassengers : vec) (fs : filesystem) (s : Z) :
  save_sorted can_create allPassengers fs s =
    write_file can_create (sorted_name "qs" s)
      (csv_text (sorted_of (quickSortR (take (Z.to_nat s) allPassengers))))
      (write_file can_create (sorted_name "is" s)
         (csv_text (sorted_of (insertionSort (take (Z.to_nat s) allPassengers))))
         (write_file can_create (sorted_name "ss" s)
            (csv_text (sorted_of (selectionSort (take (Z.to_nat s) allPassengers))))
            fs)).
Proof. reflexivity. Qed.

(** The files of one size do not touch a file that is not theirs. *)
Lemma save_sorted_other (allPassengers : vec) (fs : filesystem) (s : Z) (name : string) :
  (forall a, a ∈ ["ss"; "is"; "qs"] -> name <> sorted_name a s) ->
  save_sorted can_create allPassengers fs s !! name = fs !! name.
Proof.
  intros Hne. rewrite save_sorted_expand.
  rewrite !write_file_other; [done|apply Hne..]; set_solver.
Qed.

Lemma foldl_save_sorted_other (allPassengers : vec) (name : string) :
  forall todo fs,
    (forall a s, a ∈ ["ss"; "is"; "qs"] -> s ∈ todo -> name <> sorted_name a s) ->
    foldl (save_sorted can_create allPassengers) fs todo !! name = fs !! name.
Proof.
  induction todo as [|s todo IH]; intros fs Hne; [done|]. cbn [foldl].
  rewrite IH by (intros a s' Ha Hs'; apply Hne; [done|by right]).
  apply save_sorted_other. intros a Ha. apply Hne; [done|by left].
Qed.

Lemma save_sorted_own (allPassengers : vec) (fs : filesystem) (s : Z) (a : string) :
  (forall f, can_create f = true) -> a ∈ ["ss"; "is"; "qs"] ->
  save_sorted can_create allPassengers fs s !! sorted_name a s
  = Some (sorted_content allPassengers a s).
Proof.
  intros Hcreate Ha. rewrite save_sorted_expand. unfold write_file.
  rewrite !Hcreate. unfold sorted_content.
  repeat (apply elem_of_cons in Ha as [->|Ha]); [..|by apply elem_of_nil in Ha].
  - rewrite !lookup_insert_ne by (intros [? _]%sorted_name_inj; [done|set_solver..]).
    apply lookup_insert_eq.
  - rewrite lookup_insert_ne by (intros [? _]%sorted_name_inj; [done|set_solver..]).
    apply lookup_insert_eq.
  - apply lookup_insert_eq.
Qed.

Lemma foldl_save_sorted_own (allPassengers : vec) (a : string) (s : Z) :
  (forall f, can_create f = true) -> a ∈ ["ss"; "is"; "qs"] ->
  forall todo fs,
    s ∈ todo ->
    foldl (save_sorted can_create allPassengers) fs todo !! sorted_name a s
    = Some (sorted_content allPassengers a s).
Proof.
  intros Hcreate Ha.
  induction todo as [|s' todo IH]; intros fs Hs; [by apply elem_of_nil in Hs|].
  cbn [foldl]. destruct (decide (s ∈ todo)) as [Hin|Hnotin]; [by apply IH|].
  apply elem_of_cons in Hs as [<-|Hs]; [|done].
  rewrite foldl_save_sorted_other; [by apply save_sorted_own|].
  intros a' s' Ha' Hs' [_ ->]%sorted_name_inj; done.
Qed.

End MoreDriver.

Section DriverRuns.

Variable std_sort : vec -> vec.
Variable clock : nat -> Z.
Variable can_create : string -> bool.

Lemma lines_of_empty (fuel : nat) : lines_of fuel EmptyString = [].
Proof. by destruct fuel. Qed.

(** X11. A file that opens but holds nothing after its first line (an
    empty file, a header with or without its line feed) is treated like a
    file that cannot be opened: [main] returns 1 and writes nothing. *)
Theorem main_without_rows (fs : filesystem) (content header : string) :
  fs !! "passengers.csv" = Some content ->
  occurs newline header = false ->
  content = header \/ content = header +:+ nl ->
  loadPassengers fs "passengers.csv" = Ok [] /\
  main std_sort clock can_create fs = Ok (1, fs).
Proof.
  intros Hfile Hheader Hcontent.
  assert (loadPassengers fs "passengers.csv" = Ok []) as Hload.
  { rewrite (loadPassengers_data_rows _ _ _ Hfile). unfold data_rows.
    destruct Hcontent as [->| ->].
    - unfold getline. destruct header as [|c header]; [done|].
      rewrite (split_at_end _ _ Hheader). by rewrite lines_of_empty.
    - unfold nl. rewrite (getline_delim _ _ _ Hheader). by rewrite lines_of_empty. }
  split; [done|]. unfold main. by rewrite Hload.
Qed.

(** X12. A line after the header whose number [std::stoi] rejects makes
    [loadPassengers] throw, and [main], which catches nothing, ends with
    that same exception in place of an exit status, whatever the library
    sort, the clock and the output streams are. *)
Theorem malformed_row_aborts_main (fs : filesystem) (content row : string) :
  fs !! "passengers.csv" = Some content ->
  row ∈ data_rows content ->
  (forall n, stoi (nth_field 1 row) <> Ok n) ->
  exists e, loadPassengers fs "passengers.csv" = Throw e /\
            main std_sort clock can_create fs = Throw e.
Proof.
  intros Hfile Hrow Hbad.
  destruct (parse_rows_throws row (data_rows content) Hbad Hrow) as [e He].
  exists e. rewrite <- (loadPassengers_data_rows _ _ _ Hfile) in He.
  split; [done|]. unfold main. by rewrite He.
Qed.

(** X13. A complete run of [main] writes the timing log and files under
    [sorted/] and nothing else: every other file, the input file among
    them, is as it was. *)
Theorem main_writes_only_its_outputs
    (fs : filesystem) (allPassengers : vec) :
  loadPassengers fs "passengers.csv" = Ok allPassengers ->
  100000 <= size allPassengers ->
  exists fs',
    main std_sort clock can_create fs = Ok (0, fs') /\
    fs' !! "passengers.csv" = fs !! "passengers.csv" /\
    forall name,
      name <> "timings.csv" -> String.prefix "sorted/" name = false ->
      fs' !! name = fs !! name.
Proof.
  intros Hload Hsize. eexists. split; [by apply main_covers|].
  assert (forall name,
            name <> "timings.csv" -> String.prefix "sorted/" name = false ->
            write_file can_create "timings.csv" (log_header +:+ log_rows clock sizes 0)
              (foldl (save_sorted can_create allPassengers) fs sizes) !! name
            = fs !! name) as Hother.
  { intros name Hlog Hname. rewrite write_file_other by done.
    apply foldl_save_sorted_other. intros a s _ _ ->.
    by rewrite sorted_name_prefix in Hname. }
  split; [by apply Hother|done].
Qed.

(** X14. After a complete run in which every output stream opened, the
    file of each algorithm and each size holds a sorted permutation of
    the first [size] records of the data set, and [loadPassengers] reads
    that vector back from it. *)
Theorem sorted_files_hold_sorted_prefixes
    (fs : filesystem) (allPassengers : vec) (a : string) (s : Z) :
  loadPassengers fs "passengers.csv" = Ok allPassengers ->
  100000 <= size allPassengers ->
  (forall f, can_create f = true) ->
  a ∈ ["ss"; "is"; "qs"] -> s ∈ sizes ->
  exists fs' r,
    main std_sort clock can_create fs = Ok (0, fs') /\
    algorithm_named a (take (Z.to_nat s) allPassengers) = Ok r /\
    fs' !! sorted_name a s = Some (csv_text r) /\
    take (Z.to_nat s) allPassengers ≡ₚ r /\ sorted r /\
    loadPassengers fs' (sorted_name a s) = Ok r.
Proof.
  intros Hload Hsize Hcreate Ha Hs.
  assert (1 <= s <= 100000) as Hrange.
  { pose proof sizes_range as Hall. rewrite Forall_forall in Hall.
    by apply Hall in Hs as [? _]. }
  set (prefix := take (Z.to_nat s) allPassengers).
  assert (size prefix = s) as Hprefix by (unfold prefix; rewrite size_take; lia).
  assert (exists r, algorithm_named a prefix = Ok r /\ prefix ≡ₚ r /\ sorted r)
    as (r & Hr & Hperm & Hsorted).
  { repeat (apply elem_of_cons in Ha as [->|Ha]); [..|by apply elem_of_nil in Ha];
      cbn [algorithm_named String.eqb Ascii.eqb Bool.eqb].
    - apply selectionSort_sorts. unfold INT_MAX. lia.
    - apply insertionSort_sorts. unfold INT_MAX. lia.
    - apply quickSortR_sorts; [apply size_pos_nonempty|unfold LONG_MAX]; lia. }
  assert (write_file can_create "timings.csv" (log_header +:+ log_rows clock sizes 0)
            (foldl (save_sorted can_create allPassengers) fs sizes) !! sorted_name a s
          = Some (csv_text r)) as Hfile.
  { rewrite write_file_other by done.
    rewrite (foldl_save_sorted_own can_create allPassengers a s Hcreate Ha) by done.
    unfold sorted_content. fold prefix. by rewrite Hr. }
  eexists _, r. split; [by apply main_covers|].
  split; [done|]. split; [done|]. split; [done|]. split; [done|].
  apply loadPassengers_csv_text; [done|].
  rewrite <- Hperm. apply Forall_take. by apply (loadPassengers_row_ok fs "passengers.csv").
Qed.

End DriverRuns.

Lemma main_without_rows_witness :
  main (merge_sort leP) (fun t => Z.of_nat t) (fun _ => true)
    {[ "passengers.csv" := csv_header +:+ nl ]}
  = Ok (1, {[ "passengers.csv" := csv_header +:+ nl ]}).
Proof.
  apply (main_without_rows (merge_sort leP) (fun t => Z.of_nat t) (fun _ => true)
           _ (csv_header +:+ nl) csv_header).
  - reflexivity.
  - vm_compute. reflexivity.
  - by right.
Defined.

Lemma malformed_row_aborts_main_witness :
  exists e,
    main (merge_sort leP) (fun t => Z.of_nat t) (fun _ => true)
      {[ "passengers.csv" := "name,cabin,class,port
Ann,x1,1,Kiel
" ]} = Throw e.
Proof.
  destruct (malformed_row_aborts_main (merge_sort leP) (fun t => Z.of_nat t)
              (fun _ => true)
              {[ "passengers.csv" := "name,cabin,class,port
Ann,x1,1,Kiel
" ]} "name,cabin,class,port
Ann,x1,1,Kiel
" "Ann,x1,1,Kiel") as (e & _ & He).
  - reflexivity.
  - vm_compute. left.
  - intros n. vm_compute. discriminate.
  - by exists e.
Defined.

Lemma main_writes_only_its_outputs_witness :
  exists fs',
    main (merge_sort leP) (fun t => Z.of_nat t) (fun _ => true)
      {[ "passengers.csv" :=
           csv_text (replicate (Z.to_nat 100000) (mkPassenger "Ann" 1 "1" "Kiel")) ]}
    = Ok (0, fs') /\
    fs' !! "passengers.csv"
    = Some (csv_text (replicate (Z.to_nat 100000) (mkPassenger "Ann" 1 "1" "Kiel"))).
Proof.
  destruct (main_writes_only_its_outputs (merge_sort leP) (fun t => Z.of_nat t)
              (fun _ => true)
              {[ "passengers.csv" :=
                   csv_text (replicate (Z.to_nat 100000) (mkPassenger "Ann" 1 "1" "Kiel")) ]}
              (replicate (Z.to_nat 100000) (mkPassenger "Ann" 1 "1" "Kiel")))
    as (fs' & Hmain & Hin & _).
  - apply replicate_loads, row_ok_example.
  - rewrite size_replicate; lia.
  - exists fs'. split; [exact Hmain|]. rewrite Hin. apply lookup_singleton_eq.
Defined.

Lemma sorted_files_hold_sorted_prefixes_witness :
  exists fs' r,
    main (merge_sort leP) (fun t => Z.of_nat t) (fun _ => true)
      {[ "passengers.csv" :=
           csv_text (replicate (Z.to_nat 100000) (mkPassenger "Ann" 1 "1" "Kiel")) ]}
    = Ok (0, fs') /\
    loadPassengers fs' "sorted/qs_3000.csv" = Ok r /\ sorted r.
Proof.
  destruct (sorted_files_hold_sorted_prefixes (merge_sort leP) (fun t => Z.of_nat t)
              (fun _ => true)
              {[ "passengers.csv" :=
                   csv_text (replicate (Z.to_nat 100000) (mkPassenger "Ann" 1 "1" "Kiel")) ]}
              (replicate (Z.to_nat 100000) (mkPassenger "Ann" 1 "1" "Kiel"))
              "qs" 3000)
    as (fs' & r & Hmain & _ & _ & _ & Hsorted & Hload).
  - apply replicate_loads, row_ok_example.
  - rewrite size_replicate; lia.
  - reflexivity.
  - set_solver.
  - unfold sizes. set_solver.
  - exists fs', r. split; [exact Hmain|]. split; [exact Hload|exact Hsorted].
Defined.

(* ------------------------------------------------------------------ *)
(** * Further properties of the comparison operators *)

Lemma lt_same_key (a b : Passenger) : key a = key b -> lt a b = false.
Proof. intros Hk. rewrite (lt_key a a b a); [apply lt_irrefl|done|done]. Qed.

(** X16. The operators derived from [operator<] agree with the three
    keys: [a <= b] holds exactly when [a < b] or both records have the same
    cabin number, destination port and full name; [a >= b] exactly when
    [a > b] or the keys are the same; [a > b] is the negation of [a <= b];
    and [a <= b] together with [a >= b] holds exactly for records with the
    same keys, whatever their cabin types. *)
Theorem derived_operators_follow_keys (a b : Passenger) :
  (le a b = true <-> lt a b = true \/ key a = key b) /\
  (ge a b = true <-> gt a b = true \/ key a = key b) /\
  gt a b = negb (le a b) /\
  (le a b = true /\ ge a b = true <-> key a = key b).
Proof.
  assert (forall x y : Passenger,
            negb (lt y x) = true <-> lt x y = true \/ key x = key y) as Hle.
  { intros x y. split.
    - intros Hyx%negb_true_iff. destruct (lt x y) eqn:Hxy; [by left|right].
      by apply lt_incomparable_key.
    - intros [Hxy|Hk]; apply negb_true_iff.
      + by apply lt_asym.
      + by apply lt_same_key. }
  split; [apply Hle|]. split.
  { unfold ge, gt. rewrite (Hle b a). split; (intros [?|?]; [by left|by right]). }
  split; [unfold gt, le; by rewrite negb_involutive|].
  unfold le, ge. split.
  - intros [Hba%negb_true_iff Hab%negb_true_iff]. by apply lt_incomparable_key.
  - intros Hk. by rewrite (lt_same_key a b), (lt_same_key b a).
Qed.
